(** * Sprint status dashboard: resolver, broadcast hub and idle shutdown

    A shallow embedding of [sprint-dashboard/skills/show-sprint-status/server.py]:
    the status resolver ([normalize_status], [get_status_from_story_file],
    [parse_sprint_status] with its [story_sort_key] post-pass), the progress
    computation of the page's [renderDashboard], the broadcast of
    [file_watcher] and the viewer life cycle of [websocket_handler] and
    [shutdown_timer].

    Python [str] values are modelled as [string]: sequences of code points
    below 256, with Python's own classification of those code points
    ([str.isspace], [str.isdigit], [str.isalpha], [str.lower], and the
    classes [\s], [\d] of [re]). *)

From stdpp Require Import gmap strings list.
From Stdlib Require Import String Ascii ZArith QArith Lia Permutation Sorted.
Close Scope Q_scope.
Local Open Scope string_scope.
Local Open Scope list_scope.

(** ** Python's string primitives *)

Module Py.

Definition code (c : ascii) : nat := nat_of_ascii c.

Definition between (lo hi n : nat) : bool := (lo <=? n)%nat && (n <=? hi)%nat.

(** [str.isspace] on one character; it is also the class [\s] of [re]. *)
Definition isspace (c : ascii) : bool :=
  let n := code c in
  between 9 13 n || between 28 32 n || (n =? 133)%nat || (n =? 160)%nat.

(** The class [\d] of [re]: decimal digits. *)
Definition isdecimal (c : ascii) : bool := between 48 57 (code c).

(** [str.isdigit] on one character: the decimal digits and the superscripts. *)
Definition isdigit_char (c : ascii) : bool :=
  let n := code c in
  between 48 57 n || (n =? 178)%nat || (n =? 179)%nat || (n =? 185)%nat.

(** [str.isalpha] on one character. *)
Definition isalpha (c : ascii) : bool :=
  let n := code c in
  between 65 90 n || between 97 122 n
  || (n =? 170)%nat || (n =? 181)%nat || (n =? 186)%nat
  || between 192 214 n || between 216 246 n || between 248 255 n.

Definition isupper (c : ascii) : bool :=
  let n := code c in
  between 65 90 n || between 192 214 n || between 216 222 n.

Definition lower_char (c : ascii) : ascii :=
  if isupper c then ascii_of_nat (code c + 32) else c.

(** Title-casing of one character.  The three letters whose title case
    leaves the modelled range (U+00B5, U+00DF, U+00FF) are kept as they
    are; [str.title] only produces the display title of a story. *)
Definition title_char (c : ascii) : ascii :=
  let n := code c in
  if between 97 122 n || between 224 246 n || between 248 254 n
  then ascii_of_nat (n - 32) else c.

(** [s.lower()] *)
Fixpoint lower (s : string) : string :=
  match s with
  | EmptyString => EmptyString
  | String c s' => String (lower_char c) (lower s')
  end.

(** [s.title()]: a letter that follows a cased letter is lower-cased, any
    other letter is title-cased. *)
Fixpoint title_from (previous_is_cased : bool) (s : string) : string :=
  match s with
  | EmptyString => EmptyString
  | String c s' =>
      String (if previous_is_cased then lower_char c else title_char c)
             (title_from (isalpha c) s')
  end.

Definition title (s : string) : string := title_from false s.

(** [s.lstrip()], [s.rstrip()], [s.strip()] *)
Fixpoint lstrip (s : string) : string :=
  match s with
  | EmptyString => EmptyString
  | String c s' => if isspace c then lstrip s' else s
  end.

Fixpoint rstrip (s : string) : string :=
  match s with
  | EmptyString => EmptyString
  | String c s' =>
      match rstrip s' with
      | EmptyString => if isspace c then EmptyString else String c EmptyString
      | r => String c r
      end
  end.

Definition strip (s : string) : string := rstrip (lstrip s).

(** [s.startswith(p)] *)
Definition startswith (s p : string) : bool := String.prefix p s.

(** [sub in s] *)
Fixpoint contains (sub s : string) : bool :=
  String.prefix sub s ||
  match s with
  | EmptyString => false
  | String _ s' => contains sub s'
  end.

(** [s.split(sep)] for a one-character separator: never empty. *)
Fixpoint split_on (sep : ascii) (s : string) : list string :=
  match s with
  | EmptyString => [EmptyString]
  | String c s' =>
      if Ascii.eqb c sep then EmptyString :: split_on sep s'
      else match split_on sep s' with
           | w :: ws => String c w :: ws
           | [] => [String c EmptyString]
           end
  end.

(** [s.split()]: the maximal runs of non-space characters. *)
Fixpoint split (s : string) : list string :=
  match s with
  | EmptyString => []
  | String c s' =>
      if isspace c then split s'
      else match s' with
           | EmptyString => [String c EmptyString]
           | String d _ =>
               if isspace d then String c EmptyString :: split s'
               else match split s' with
                    | w :: ws => String c w :: ws
                    | [] => [String c EmptyString]
                    end
           end
  end.

(** [s.replace(a, b)] for one-character [a] and [b]. *)
Fixpoint replace (a b : ascii) (s : string) : string :=
  match s with
  | EmptyString => EmptyString
  | String c s' => String (if Ascii.eqb c a then b else c) (replace a b s')
  end.

(** [sep.join(l)] *)
Fixpoint join (sep : string) (l : list string) : string :=
  match l with
  | [] => EmptyString
  | [w] => w
  | w :: ws => w ++ sep ++ join sep ws
  end.

(** [s.isdigit()]: every character is a digit and there is at least one. *)
Fixpoint all_chars (p : ascii -> bool) (s : string) : bool :=
  match s with
  | EmptyString => true
  | String c s' => p c && all_chars p s'
  end.

Fixpoint any_char (p : ascii -> bool) (s : string) : bool :=
  match s with
  | EmptyString => false
  | String c s' => p c || any_char p s'
  end.

Definition isdigit (s : string) : bool :=
  negb (s =? EmptyString) && all_chars isdigit_char s.

(** [x in (a, b, ...)] for strings *)
Definition in_tuple (x : string) (t : list string) : bool :=
  existsb (String.eqb x) t.

(** String comparison [a < b]: by code point, a proper prefix first. *)
Fixpoint str_lt (a b : string) : bool :=
  match a, b with
  | _, EmptyString => false
  | EmptyString, String _ _ => true
  | String x a', String y b' =>
      (code x <? code y)%nat || ((code x =? code y)%nat && str_lt a' b')
  end.

(** [int(s)] for a run of decimal digits. *)
Fixpoint int_from (acc : Z) (s : string) : Z :=
  match s with
  | EmptyString => acc
  | String c s' => int_from (10 * acc + Z.of_nat (code c - 48)) s'
  end.

Definition int (s : string) : Z := int_from 0 s.

(** [re.findall(r'\d+', s)]: the maximal runs of decimal digits. *)
Fixpoint findall_digits (s : string) : list string :=
  match s with
  | EmptyString => []
  | String c s' =>
      if isdecimal c then
        match s' with
        | EmptyString => [String c EmptyString]
        | String d _ =>
            if isdecimal d then
              match findall_digits s' with
              | w :: ws => String c w :: ws
              | [] => [String c EmptyString]
              end
            else String c EmptyString :: findall_digits s'
        end
      else findall_digits s'
  end.

End Py.

(** ** Regular expressions and paths used by the resolver *)

Module Re.
Import Py.

Definition newline : ascii := ascii_of_nat 10.

Fixpoint drop_while (p : ascii -> bool) (s : string) : string :=
  match s with
  | EmptyString => EmptyString
  | String c s' => if p c then drop_while p s' else s
  end.

Fixpoint take_while (p : ascii -> bool) (s : string) : string :=
  match s with
  | EmptyString => EmptyString
  | String c s' => if p c then String c (take_while p s') else EmptyString
  end.

(** The pattern [\s*\([^)]*\)\s*$] matches [s] from its first character
    on: spaces, an opening parenthesis, characters other than [")"], a
    closing parenthesis, and nothing but spaces up to the end. *)
Definition paren_note_matches (s : string) : bool :=
  match drop_while isspace s with
  | String "("%char t =>
      match drop_while (fun c => negb (Ascii.eqb c ")"%char)) t with
      | String _ u => all_chars isspace u
      | EmptyString => false
      end
  | _ => false
  end.

(** [re.sub(r'\s*\([^)]*\)\s*$', '', s)]: the leftmost match runs to the
    end of the string and is deleted. *)
Fixpoint sub_paren_note (s : string) : string :=
  if paren_note_matches s then EmptyString
  else match s with
       | EmptyString => EmptyString
       | String c s' => String c (sub_paren_note s')
       end.

(** Group 1 of [\s*(.+)]: [\s*] is greedy and gives characters back until
    [.+] finds a character other than the newline to start from. *)
Fixpoint spaces_then_rest (s : string) : option string :=
  match s with
  | EmptyString => None
  | String c s' =>
      let here := Some (take_while (fun d => negb (Ascii.eqb d newline)) s) in
      if isspace c then
        match spaces_then_rest s' with
        | Some g => Some g
        | None => if Ascii.eqb c newline then None else here
        end
      else here
  end.

(** [re.match(r'^Status:\s*(.+)', line, re.IGNORECASE)], giving
    [match.group(1)] when the line matches. *)
Definition match_status (line : string) : option string :=
  if lower (substring 0 7 line) =? "status:"
  then spaces_then_rest (substring 7 (String.length line - 7) line)
  else None.

End Re.

Module Path.
Import Py.

Definition slash : ascii := "/"%char.

(** [(p[:i], p[i:])] for [i = p.rfind('/') + 1] *)
Fixpoint split_at_last_slash (p : string) : string * string :=
  match p with
  | EmptyString => (EmptyString, EmptyString)
  | String c p' =>
      let (head, tail) := split_at_last_slash p' in
      match head with
      | String _ _ => (String c head, tail)
      | EmptyString =>
          if Ascii.eqb c slash then (String c EmptyString, tail)
          else (EmptyString, String c tail)
      end
  end.

(** [head.rstrip('/')] *)
Fixpoint rstrip_slash (s : string) : string :=
  match s with
  | EmptyString => EmptyString
  | String c s' =>
      match rstrip_slash s' with
      | EmptyString => if Ascii.eqb c slash then EmptyString else String c EmptyString
      | r => String c r
      end
  end.

(** [os.path.dirname] *)
Definition dirname (p : string) : string :=
  let head := fst (split_at_last_slash p) in
  if negb (head =? EmptyString) && negb (all_chars (Ascii.eqb slash) head)
  then rstrip_slash head else head.

(** [os.path.basename] *)
Definition basename (p : string) : string := snd (split_at_last_slash p).

Definition endswith_slash (a : string) : bool :=
  match String.get (String.length a - 1) a with
  | Some c => Ascii.eqb c slash
  | None => false
  end.

(** [os.path.join(a, b)] *)
Definition join (a b : string) : string :=
  if startswith b "/" then b
  else if (a =? EmptyString) || endswith_slash a then a ++ b
  else a ++ "/" ++ b.

End Path.

(** ** Status Resolver *)

Import Py.

(** *** Values and results *)

(** What [yaml.safe_load] returns: scalars, sequences, and mappings whose
    keys are scalars (PyYAML refuses unhashable keys).  A mapping keeps
    the insertion order of the document, as a Python [dict] does.  Floats
    and timestamps are left out: like [SInt] they are not [str]. *)
Inductive scalar : Type :=
| SNone
| SBool (b : bool)
| SInt (n : Z)
| SStr (s : string).

#[warnings="-register-all"]
Inductive yaml : Type :=
| Scalar (v : scalar)
| Seq (items : list yaml)
| Map (entries : list (scalar * yaml)).

Definition Str (s : string) : yaml := Scalar (SStr s).

(** The result of a call: a value, or an exception that nothing caught. *)
Inductive outcome (A : Type) : Type :=
| Returns (a : A)
| Raises (exception : string).
Arguments Returns {A} a.
Arguments Raises {A} exception.

#[global] Instance outcome_bind : MBind outcome := fun A B f x =>
  match x with
  | Returns a => f a
  | Raises e => Raises e
  end.

#[global] Instance outcome_ret : MRet outcome := @Returns.

(** Truth value of a loaded value: [None], [False], [0], [''], [[]] and
    [{}] are false. *)
Definition truthy (v : yaml) : bool :=
  match v with
  | Scalar SNone => false
  | Scalar (SBool b) => b
  | Scalar (SInt n) => negb (n =? 0)%Z
  | Scalar (SStr s) => negb (s =? EmptyString)
  | Seq items => match items with [] => false | _ => true end
  | Map entries => match entries with [] => false | _ => true end
  end.

(** [d.get(key, default)] on a mapping, for a [str] key. *)
Fixpoint dict_get (entries : list (scalar * yaml)) (key : string) (default : yaml) : yaml :=
  match entries with
  | [] => default
  | (SStr k, v) :: rest => if k =? key then v else dict_get rest key default
  | _ :: rest => dict_get rest key default
  end.

(** [data.get(key, default)]: only a mapping has the method. *)
Definition get (data : yaml) (key : string) (default : yaml) : outcome yaml :=
  match data with
  | Map entries => Returns (dict_get entries key default)
  | _ => Raises "AttributeError"
  end.

(** [d.items()]: only a mapping has the method. *)
Definition items (d : yaml) : outcome (list (scalar * yaml)) :=
  match d with
  | Map entries => Returns entries
  | _ => Raises "AttributeError"
  end.

(** *** The files the resolver reads *)

Inductive file_node : Type :=
| Dir
| Unreadable
| Text (content : string).

Inductive load_result : Type :=
| LoadFails (e : string)
| Loaded (data : yaml).

(** [fs path] is what is at [path]: nothing, a directory, a file that
    [open] or a read raises on, or a text file with its content as the
    text layer delivers it.  [safe_load path] is the result of opening
    the file at [path] and running [yaml.safe_load] on it: the exception's
    message, or the loaded value. *)
Record world : Type := {
  fs : string -> option file_node;
  safe_load : string -> load_result
}.

Definition exists_ (w : world) (path : string) : bool :=
  match fs w path with Some _ => true | None => false end.

Definition isdir (w : world) (path : string) : bool :=
  match fs w path with Some Dir => true | _ => false end.

(** [f.readline()]: the next line with its newline, and the rest. *)
Fixpoint readline (text : string) : string * string :=
  match text with
  | EmptyString => (EmptyString, EmptyString)
  | String c text' =>
      if Ascii.eqb c Re.newline then (String c EmptyString, text')
      else let (line, rest) := readline text' in (String c line, rest)
  end.

(** *** normalize_status *)

Definition closed_set : list string :=
  ["backlog"; "drafted"; "ready-for-dev"; "in-progress"; "review"; "done"].

Definition normalize_status (raw_status : string) : string :=
  let raw := strip (lower raw_status) in
  let raw := strip (Re.sub_paren_note raw) in
  if in_tuple raw closed_set then raw
  else if in_tuple raw ["done"; "complete"; "completed"; "finished"] then "done"
  else if startswith raw "ready for review" || (raw =? "ready-for-review") then "review"
  else if startswith raw "in progress" || startswith raw "in-progress" || (raw =? "wip")
    then "in-progress"
  else if startswith raw "ready for dev" || startswith raw "ready-for-dev" || (raw =? "ready")
    then "ready-for-dev"
  else if (raw =? "draft") || (raw =? "drafted") then "drafted"
  else
    let first_word :=
      if negb (raw =? EmptyString) then hd EmptyString (split raw) else "backlog" in
    replace "_" "-" first_word.

(** *** get_status_from_story_file *)

(** The loop [for _ in range(10)] over the lines of an open file. *)
Fixpoint scan_status (n : nat) (text : string) : option string :=
  match n with
  | O => None
  | S n' =>
      let (line, rest) := readline text in
      if line =? EmptyString then None
      else match Re.match_status line with
           | Some group1 =>
               let raw_status := lower (strip group1) in
               Some (normalize_status raw_status)
           | None => scan_status n' rest
           end
  end.

Definition get_status_from_story_file (w : world) (story_dir story_key : string)
  : option string :=
  let story_file := Path.join story_dir (story_key ++ ".md")%string in
  if negb (exists_ w story_file) then None
  else match fs w story_file with
       | Some (Text content) => scan_status 10 content
       | _ => None
       end.

(** *** parse_sprint_status *)

(** A story entry: the dict with keys [key], [title], [status] and, when
    the two sources disagree, [file_status], [yaml_status] and
    [status_mismatch]. *)
Record story : Type := {
  story_key : string;
  story_title : string;
  story_status : yaml;
  file_status : option string;
  yaml_status : option yaml;
  status_mismatch : option bool
}.

Record epic : Type := {
  epic_key : string;
  epic_title : string;
  epic_status : yaml;
  stories : list story
}.

(** The returned dict: [error] and [_story_dir] are optional keys. *)
Record snapshot : Type := {
  error : option string;
  epics : list epic;
  _story_dir : option string
}.

(** The loop [for _ in range(5)] that looks for the story directory. *)
Fixpoint walk_up (w : world) (n : nat) (yaml_dir story_location check_dir : string)
  : option string :=
  match n with
  | O => None
  | S n' =>
      let candidate := Path.join check_dir story_location in
      if isdir w candidate then Some candidate
      else if Path.basename yaml_dir =? Path.basename story_location then Some yaml_dir
      else walk_up w n' yaml_dir story_location (Path.dirname check_dir)
  end.

Definition find_story_dir (w : world) (yaml_dir : string) (story_location : yaml)
  : outcome string :=
  if truthy story_location then
    match story_location with
    | Scalar (SStr location) =>
        let story_dir := walk_up w 5 yaml_dir location yaml_dir in
        match story_dir with
        | Some d => if d =? EmptyString then Returns yaml_dir else Returns d
        | None => Returns yaml_dir
        end
    | _ => Raises "TypeError"
    end
  else Returns yaml_dir.

(** [file_status != yaml_status]: a [str] differs from every value that is
    not the same [str]. *)
Definition str_ne (a : string) (v : yaml) : bool :=
  match v with
  | Scalar (SStr b) => negb (a =? b)
  | _ => true
  end.

Definition story_entry (w : world) (story_dir key : string) (parts : list string)
  (status : yaml) : story :=
  let file_status := get_status_from_story_file w story_dir key in
  let yaml_status := status in
  let file_truthy :=
    match file_status with Some f => negb (f =? EmptyString) | None => false end in
  let actual_status :=
    match file_status with
    | Some f => if file_truthy then Str f else yaml_status
    | None => yaml_status
    end in
  let story_title :=
    if (2 <? List.length parts)%nat
    then title (replace "-" " " (join "-" (drop 2 parts)))
    else key in
  let disagree :=
    match file_status with
    | Some f => file_truthy && str_ne f yaml_status
    | None => false
    end in
  {| story_key := key;
     story_title := story_title;
     story_status := actual_status;
     file_status := if disagree then file_status else None;
     yaml_status := if disagree then Some yaml_status else None;
     status_mismatch := if disagree then Some true else None |}.

(** The two locals of the loop: the dict [epics] and the list [epic_order]. *)
Record groups : Type := {
  by_key : gmap string epic;
  epic_order : list string
}.

Definition no_groups : groups := {| by_key := ∅; epic_order := [] |}.

(** [if epic_num not in epics: epics[epic_num] = {...}; epic_order.append(epic_num)] *)
Definition ensure_epic (epic_num title : string) (status : yaml) (st : groups) : groups :=
  match by_key st !! epic_num with
  | Some _ => st
  | None =>
      {| by_key := <[epic_num := {| epic_key := epic_num; epic_title := title;
                                     epic_status := status; stories := [] |}]> (by_key st);
         epic_order := epic_order st ++ [epic_num] |}
  end.

(** [epics[epic_num]['stories'].append(story_entry)] *)
Definition append_story (epic_num : string) (s : story) (st : groups) : groups :=
  {| by_key := alter (fun e => {| epic_key := epic_key e; epic_title := epic_title e;
                                   epic_status := epic_status e;
                                   stories := stories e ++ [s] |}) epic_num (by_key st);
     epic_order := epic_order st |}.

Definition is_epic_key (key : string) : bool :=
  startswith key "epic-"
  && negb (any_char (fun c => negb (Ascii.eqb c "e"%char) && isalpha c)
                    (List.last (split_on "-" key) EmptyString)).

(** One turn of [for key, status in dev_status.items()] for a [str] key. *)
Definition visit (w : world) (story_dir : string) (st : groups) (key : string)
  (status : yaml) : groups :=
  if contains "retrospective" key then st
  else if is_epic_key key then
    let epic_num := key in
    ensure_epic epic_num ("Epic " ++ List.last (split_on "-" key) EmptyString)%string status st
  else
    let parts := split_on "-" key in
    match parts with
    | p0 :: _ =>
        if (2 <=? List.length parts)%nat && isdigit p0 then
          let epic_num := ("epic-" ++ p0)%string in
          let st := ensure_epic epic_num ("Epic " ++ p0)%string (Str "in-progress") st in
          append_story epic_num (story_entry w story_dir key parts status) st
        else st
    | [] => st
    end.

(** The whole loop.  The test ['retrospective' in key] raises on a key
    that is not a [str]. *)
Fixpoint group_entries (w : world) (story_dir : string)
  (entries : list (scalar * yaml)) (st : groups) : outcome groups :=
  match entries with
  | [] => Returns st
  | (SStr key, status) :: rest =>
      group_entries w story_dir rest (visit w story_dir st key status)
  | _ :: _ => Raises "TypeError"
  end.

(** *** The sorting pass *)

(** The values of [story_sort_key]: a pair of integers, or
    [(float('inf'), key)]. *)
Inductive sort_key : Type :=
| NumericPair (epic_num story_num : Z)
| NoNumbers (key : string).

Definition story_sort_key (s : story) : sort_key :=
  let numbers := findall_digits (story_key s) in
  match numbers with
  | n0 :: n1 :: _ => NumericPair (int n0) (int n1)
  | [n0] => NumericPair (int n0) 0
  | [] => NoNumbers (story_key s)
  end.

(** Python's [<] on these tuples: an integer is below [float('inf')]. *)
Definition sort_key_lt (a b : sort_key) : bool :=
  match a, b with
  | NumericPair a1 a2, NumericPair b1 b2 =>
      (a1 <? b1)%Z || ((a1 =? b1)%Z && (a2 <? b2)%Z)
  | NumericPair _ _, NoNumbers _ => true
  | NoNumbers _, NumericPair _ _ => false
  | NoNumbers ka, NoNumbers kb => str_lt ka kb
  end.

(** [list.sort(key=f)] is a stable sort that compares keys with [<]; any
    stable sort computes the same list.  Here: insertion from the right,
    an element going in front of the first one that is not below it. *)
Fixpoint insert_sorted {A K : Type} (lt : K -> K -> bool) (f : A -> K) (x : A)
  (l : list A) : list A :=
  match l with
  | [] => [x]
  | y :: l' => if lt (f y) (f x) then y :: insert_sorted lt f x l' else x :: l
  end.

Definition sort_by {A K : Type} (lt : K -> K -> bool) (f : A -> K) (l : list A) : list A :=
  foldr (insert_sorted lt f) [] l.

Definition sort_stories (e : epic) : epic :=
  {| epic_key := epic_key e; epic_title := epic_title e; epic_status := epic_status e;
     stories := sort_by sort_key_lt story_sort_key (stories e) |}.

Definition parse_sprint_status (w : world) (yaml_file : string) : outcome snapshot :=
  match safe_load w yaml_file with
  | LoadFails e => Returns {| error := Some e; epics := []; _story_dir := None |}
  | Loaded data =>
      if negb (truthy data)
      then Returns {| error := None; epics := []; _story_dir := None |}
      else
        story_location ← get data "story_location" (Str EmptyString);
        let yaml_dir := Path.dirname yaml_file in
        story_dir ← find_story_dir w yaml_dir story_location;
        dev_status ← get data "development_status" (Map []);
        entries ← items dev_status;
        st ← group_entries w story_dir entries no_groups;
        let epics := sort_stories <$> by_key st in
        Returns {| error := None;
                   epics := omap (fun k => epics !! k) (epic_order st);
                   _story_dir := Some story_dir |}
  end.

(** ** The page: progress of an epic in [renderDashboard] *)

Module View.

(** [s.status === 'done'] *)
Definition is_done (s : story) : bool :=
  match story_status s with
  | Scalar (SStr status) => status =? "done"
  | _ => false
  end.

Definition doneCount (e : epic) : nat := List.length (List.filter is_done (stories e)).

Definition totalCount (e : epic) : nat := List.length (stories e).

(** A quotient of two counts; [None] stands for the [NaN] or [Infinity]
    that a zero divisor gives.  The quotient is kept exact, where the page
    computes in double precision. *)
Definition divide (a b : nat) : option Q :=
  match b with
  | O => None
  | S _ => Some (Z.of_nat a # Pos.of_nat b)%Q
  end.

(** [totalCount > 0 ? (doneCount / totalCount * 100) : 0] *)
Definition progress (e : epic) : option Q :=
  if (0 <? totalCount e)%nat
  then q ← divide (doneCount e) (totalCount e); Some (q * 100)%Q
  else Some 0%Q.

(** [doneCount === totalCount && totalCount > 0] *)
Definition isEpicDone (e : epic) : bool :=
  (doneCount e =? totalCount e)%nat && (0 <? totalCount e)%nat.

End View.

(** ** The server: viewers, broadcast and idle shutdown *)

Module Server.

Inductive send_result : Type :=
| Delivered
| SendRaised.

(** The globals of the module ([connected_clients], [shutdown_task],
    [story_dir], [last_modified], [last_story_modified]) and what the
    event loop holds: the clock in seconds, the [shutdown_timer] tasks
    that are asleep with the time their sleep ends, the exit code once
    [sys.exit] ran, and every call of [send] with its payload and result.
    Viewers and tasks are named by numbers. *)
Record server : Type := {
  connected_clients : gset nat;
  shutdown_task : option nat;
  story_dir : string;
  last_modified : Z;
  last_story_modified : Z;
  clock : nat;
  sleeping : gmap nat nat;
  next_task : nat;
  exit_code : option Z;
  outbox : list (nat * snapshot * send_result)
}.

Definition initial (dir : string) (modified story_modified : Z) : server :=
  {| connected_clients := ∅; shutdown_task := None; story_dir := dir;
     last_modified := modified; last_story_modified := story_modified;
     clock := 0; sleeping := ∅; next_task := 0; exit_code := None; outbox := [] |}.

(** What one pass of [file_watcher] observes: [os.path.getmtime(yaml_path)]
    (which may raise), [get_story_files_mtime(story_dir)], and the viewers
    whose [send] raises. *)
Record observation : Type := {
  current_modified : outcome Z;
  current_story_modified : Z;
  failing : gset nat
}.

Inductive event : Type :=
| Connect (websocket : nat)
| Disconnect (websocket : nat)
| Sleep (seconds : nat)
| Wake (task : nat)
| Watch (seen : observation).

(** [{k: v for k, v in data.items() if not k.startswith('_')}] *)
Definition send_data (data : snapshot) : snapshot :=
  {| error := error data; epics := epics data; _story_dir := None |}.

Definition send (failing : gset nat) (client : nat) : send_result :=
  if decide (client ∈ failing) then SendRaised else Delivered.

(** [websocket_handler] up to its first [await]: cancel a pending
    shutdown, add the viewer. *)
Definition connect (websocket : nat) (s : server) : server :=
  {| connected_clients := {[websocket]} ∪ connected_clients s;
     shutdown_task := None;
     story_dir := story_dir s; last_modified := last_modified s;
     last_story_modified := last_story_modified s; clock := clock s;
     sleeping := match shutdown_task s with
                 | Some task => delete task (sleeping s)
                 | None => sleeping s
                 end;
     next_task := next_task s; exit_code := exit_code s; outbox := outbox s |}.

(** The [finally] block of [websocket_handler]: discard the viewer and,
    with nobody left, start [shutdown_timer], which sleeps 30 seconds. *)
Definition disconnect (websocket : nat) (s : server) : server :=
  let clients := connected_clients s ∖ {[websocket]} in
  let idle := bool_decide (size clients = 0) in
  {| connected_clients := clients;
     shutdown_task := if idle then Some (next_task s) else shutdown_task s;
     story_dir := story_dir s; last_modified := last_modified s;
     last_story_modified := last_story_modified s; clock := clock s;
     sleeping := if idle then <[next_task s := clock s + 30]> (sleeping s) else sleeping s;
     next_task := if idle then S (next_task s) else next_task s;
     exit_code := exit_code s; outbox := outbox s |}.

(** [shutdown_timer] after its sleep: [sys.exit(0)] if nobody is connected. *)
Definition wake (task : nat) (s : server) : server :=
  {| connected_clients := connected_clients s; shutdown_task := shutdown_task s;
     story_dir := story_dir s; last_modified := last_modified s;
     last_story_modified := last_story_modified s; clock := clock s;
     sleeping := delete task (sleeping s);
     next_task := next_task s;
     exit_code := if bool_decide (size (connected_clients s) = 0) then Some 0%Z
                  else exit_code s;
     outbox := outbox s |}.

Definition sleep (seconds : nat) (s : server) : server :=
  {| connected_clients := connected_clients s; shutdown_task := shutdown_task s;
     story_dir := story_dir s; last_modified := last_modified s;
     last_story_modified := last_story_modified s; clock := clock s + seconds;
     sleeping := sleeping s; next_task := next_task s;
     exit_code := exit_code s; outbox := outbox s |}.

Definition set_story_dir (dir : string) (s : server) : server :=
  {| connected_clients := connected_clients s; shutdown_task := shutdown_task s;
     story_dir := dir; last_modified := last_modified s;
     last_story_modified := last_story_modified s; clock := clock s;
     sleeping := sleeping s; next_task := next_task s; exit_code := exit_code s;
     outbox := outbox s |}.

Definition record_sends (results : list (nat * snapshot * send_result)) (s : server)
  : server :=
  {| connected_clients := connected_clients s; shutdown_task := shutdown_task s;
     story_dir := story_dir s; last_modified := last_modified s;
     last_story_modified := last_story_modified s; clock := clock s;
     sleeping := sleeping s; next_task := next_task s; exit_code := exit_code s;
     outbox := outbox s ++ results |}.

(** The block under [if changed:]: resolve once and, if anybody is
    connected, send to every connected viewer with
    [asyncio.gather(..., return_exceptions=True)], which waits for every
    [send] and returns the exceptions as results. *)
Definition notify (w : world) (yaml_path : string) (failing : gset nat) (s : server)
  : outcome server :=
  data ← parse_sprint_status w yaml_path;
  let dir := match _story_dir data with Some d => d | None => story_dir s end in
  let s := set_story_dir dir s in
  if bool_decide (connected_clients s <> ∅) then
    let message := send_data data in
    let results :=
      (fun client => (client, message, send failing client))
        <$> elements (connected_clients s) in
    Returns (record_sends results s)
  else Returns s.

Definition set_modified (modified story_modified : Z) (s : server) : server :=
  {| connected_clients := connected_clients s; shutdown_task := shutdown_task s;
     story_dir := story_dir s; last_modified := modified;
     last_story_modified := story_modified; clock := clock s;
     sleeping := sleeping s; next_task := next_task s; exit_code := exit_code s;
     outbox := outbox s |}.

(** One pass of the loop of [file_watcher]; [except Exception] keeps what
    was assigned before the exception. *)
Definition watch (w : world) (yaml_path : string) (seen : observation) (s : server) : server :=
  match current_modified seen with
  | Raises _ => s
  | Returns modified =>
      let changed_yaml := negb (modified =? last_modified s)%Z in
      let changed_story := negb (current_story_modified seen =? last_story_modified s)%Z in
      let s := set_modified modified (current_story_modified seen) s in
      if changed_yaml || changed_story then
        match notify w yaml_path (failing seen) s with
        | Returns s' => s'
        | Raises _ => s
        end
      else s
  end.

(** The steps of the process.  An event that cannot happen gives [None]:
    nothing after the exit, a viewer connects once and disconnects only
    while connected, a timer wakes only when its sleep has ended. *)
Definition step (w : world) (yaml_path : string) (s : server) (e : event) : option server :=
  match exit_code s with
  | Some _ => None
  | None =>
      match e with
      | Connect websocket =>
          if decide (websocket ∈ connected_clients s) then None
          else Some (connect websocket s)
      | Disconnect websocket =>
          if decide (websocket ∈ connected_clients s) then Some (disconnect websocket s)
          else None
      | Sleep seconds => Some (sleep seconds s)
      | Wake task =>
          match sleeping s !! task with
          | Some due => if (due <=? clock s)%nat then Some (wake task s) else None
          | None => None
          end
      | Watch seen => Some (watch w yaml_path seen s)
      end
  end.

Fixpoint run (w : world) (yaml_path : string) (s : server) (events : list event)
  : option server :=
  match events with
  | [] => Some s
  | e :: rest =>
      match step w yaml_path s e with
      | Some s' => run w yaml_path s' rest
      | None => None
      end
  end.

Inductive reachable (w : world) (yaml_path : string) : server -> Prop :=
| reachable_initial dir modified story_modified :
    reachable w yaml_path (initial dir modified story_modified)
| reachable_step s e s' :
    reachable w yaml_path s -> step w yaml_path s e = Some s' -> reachable w yaml_path s'.

End Server.

(** ** Notions used in the statements *)

(** A mapping with [str] keys, as the entries of a loaded mapping. *)
Definition str_entries (dev : list (string * yaml)) : list (scalar * yaml) :=
  map (fun kv => (SStr kv.1, kv.2)) dev.

(** The source at [yaml_file] loads as a non-empty mapping whose section
    [development_status] is the mapping [dev] with [str] keys, and the
    resolver settles on the story directory [dir]. *)
Definition resolves (w : world) (yaml_file : string) (dev : list (string * yaml))
  (dir : string) : Prop :=
  exists data,
    safe_load w yaml_file = Loaded (Map data)
    /\ truthy (Map data) = true
    /\ find_story_dir w (Path.dirname yaml_file)
         (dict_get data "story_location" (Str EmptyString)) = Returns dir
    /\ dict_get data "development_status" (Map []) = Map (str_entries dev).

(** The loop of [parse_sprint_status] over a mapping with [str] keys. *)
Definition group_all (w : world) (dir : string) (dev : list (string * yaml))
  (st : groups) : groups :=
  foldl (fun st kv => visit w dir st kv.1 kv.2) st dev.

(** The branch that a key takes in the loop. *)
Inductive key_class : Type :=
| Retrospective
| GroupEntry
| Item (group_number : string)
| Unclassified.

Definition classify (key : string) : key_class :=
  if contains "retrospective" key then Retrospective
  else if is_epic_key key then GroupEntry
  else match split_on "-" key with
       | p0 :: _ =>
           if (2 <=? List.length (split_on "-" key))%nat && isdigit p0
           then Item p0 else Unclassified
       | [] => Unclassified
       end.

(** The group an item key belongs to. *)
Definition item_group (key : string) : option string :=
  match classify key with
  | Item p0 => Some ("epic-" ++ p0)%string
  | _ => None
  end.

(** The group an entry refers to, as an entry of its own or as an item. *)
Definition group_of (key : string) : option string :=
  match classify key with
  | GroupEntry => Some key
  | Item p0 => Some ("epic-" ++ p0)%string
  | _ => None
  end.

(** The stories of group [g] in the order of the mapping. *)
Definition discovered (w : world) (dir : string) (dev : list (string * yaml))
  (g : string) : list story :=
  flat_map (fun kv =>
              if decide (item_group kv.1 = Some g)
              then [story_entry w dir kv.1 (split_on "-" kv.1) kv.2] else []) dev.

(** The epic that an entry opens when group [g] has not been seen. *)
Definition opened_by (key : string) (status : yaml) (g : string) : option epic :=
  match classify key with
  | GroupEntry =>
      if decide (key = g)
      then Some {| epic_key := g;
                   epic_title := ("Epic " ++ List.last (split_on "-" key) EmptyString)%string;
                   epic_status := status; stories := [] |}
      else None
  | Item p0 =>
      if decide (("epic-" ++ p0)%string = g)
      then Some {| epic_key := g; epic_title := ("Epic " ++ p0)%string;
                   epic_status := Str "in-progress"; stories := [] |}
      else None
  | _ => None
  end.

Fixpoint first_opened (dev : list (string * yaml)) (g : string) : option epic :=
  match dev with
  | [] => None
  | kv :: rest =>
      match opened_by kv.1 kv.2 g with
      | Some e => Some e
      | None => first_opened rest g
      end
  end.

Definition add_stories (l : list story) (e : epic) : epic :=
  {| epic_key := epic_key e; epic_title := epic_title e; epic_status := epic_status e;
     stories := stories e ++ l |}.

(** The lines that the loop of [get_status_from_story_file] reads. *)
Fixpoint first_lines (n : nat) (text : string) : list string :=
  match n with
  | O => []
  | S n' =>
      let (line, rest) := readline text in
      if line =? EmptyString then [] else line :: first_lines n' rest
  end.

(** The value declared by the first line that is a status line. *)
Fixpoint first_status (lines : list string) : option string :=
  match lines with
  | [] => None
  | line :: rest =>
      match Re.match_status line with
      | Some group1 => Some group1
      | None => first_status rest
      end
  end.

(** The document status of an item: the normalized value of the first
    status line among the first ten lines of its readable document. *)
Definition document_status (w : world) (dir key : string) : option string :=
  match fs w (Path.join dir (key ++ ".md")%string) with
  | Some (Text content) =>
      (fun group1 => normalize_status (lower (strip group1)))
        <$> first_status (first_lines 10 content)
  | _ => None
  end.

(** The order that the sorting pass establishes: numeric pairs in
    lexicographic order, then the keys without a number in string order. *)
Definition key_order (a b : sort_key) : Prop :=
  match a, b with
  | NumericPair a1 a2, NumericPair b1 b2 => (a1 < b1 \/ (a1 = b1 /\ a2 <= b2))%Z
  | NumericPair _ _, NoNumbers _ => True
  | NoNumbers _, NumericPair _ _ => False
  | NoNumbers ka, NoNumbers kb => ka = kb \/ str_lt ka kb = true
  end.

#[global] Instance sort_key_eq_dec : EqDecision sort_key.
Proof. solve_decision. Defined.

(** All the stories of a snapshot. *)
Definition all_stories (snap : snapshot) : list story :=
  List.concat (stories <$> epics snap).

(** The two locals of the loop agree: [epic_order] lists each key of
    [epics] once. *)
Definition well_ordered (st : groups) : Prop :=
  NoDup (epic_order st)
  /\ forall g, g ∈ epic_order st <-> is_Some (by_key st !! g).

(** The list comprehension of the [return] statement. *)
Definition ordered_epics (st : groups) : list epic :=
  omap (fun k => (sort_stories <$> by_key st) !! k) (epic_order st).

(** ** Example sources *)

(** A text file from its lines. *)
Definition text_of (lines : list string) : string :=
  foldr (fun line rest => (line ++ String Re.newline rest)%string) EmptyString lines.

(** A world with one sprint file, [docs/sprint-status.yaml], whose section
    [development_status] is [dev], and the given story documents. *)
Definition sprint (dev : list (string * yaml)) (documents : list (string * file_node))
  : world :=
  {| fs := fun path => snd <$> List.find (fun d => fst d =? path) documents;
     safe_load := fun path =>
       if path =? "docs/sprint-status.yaml"
       then Loaded (Map [(SStr "development_status", Map (str_entries dev))])
       else LoadFails "[Errno 2] No such file or directory" |}.

Definition sprint_file : string := "docs/sprint-status.yaml".

(** The two scenarios of the specification, in one source. *)
Definition scenario_dev : list (string * yaml) :=
  [("epic-1", Str "in-progress"); ("1-2-auth", Str "in-progress"); ("1-1-setup", Str "done")].

Definition scenario : world :=
  sprint scenario_dev
    [("docs/1-1-setup.md",
      Text (text_of ["# Story 1.1: Setup"; ""; "Status: Ready for Review"]))].

(** An index value that is not in normal form, without and with a
    document that declares the same status. *)
Definition capitalized_dev : list (string * yaml) := [("1-1-setup", Str "Done")].

Definition capitalized : world := sprint capitalized_dev [].

Definition capitalized_documented : world :=
  sprint capitalized_dev
    [("docs/1-1-setup.md", Text (text_of ["# Story 1.1: Setup"; ""; "Status: Done"]))].

(** A key that is neither a group entry nor an item, with a document. *)
Definition stray_dev : list (string * yaml) := [("misc-task", Str "done")].

Definition stray : world :=
  sprint stray_dev [("docs/misc-task.md", Text (text_of ["Status: done"]))].

(** A source whose section [development_status] is empty: the YAML text
    [development_status:] loads as [{'development_status': None}]. *)
Definition empty_section : world :=
  {| fs := fun _ => None;
     safe_load := fun _ => Loaded (Map [(SStr "development_status", Scalar SNone)]) |}.

(** The groups of a result, none when the call raised. *)
Definition epics_of (result : outcome snapshot) : list epic :=
  match result with
  | Returns snap => epics snap
  | Raises _ => []
  end.

(** ** Notions used in the statements about the server *)




(** A timer that is asleep is the one [shutdown_task] refers to, and
    nobody is connected while it sleeps. *)
Definition timers_known (s : Server.server) : Prop :=
  forall task due, Server.sleeping s !! task = Some due ->
    Server.shutdown_task s = Some task /\ Server.connected_clients s = ∅.

(** The snapshot of the scenario. *)
Definition scenario_snapshot : snapshot :=
  Eval vm_compute in
    match parse_sprint_status scenario sprint_file with
    | Returns snap => snap
    | Raises _ => {| error := None; epics := []; _story_dir := None |}
    end.

(** The group of the scenario. *)
Definition scenario_epic : epic :=
  Eval vm_compute in
    hd {| epic_key := EmptyString; epic_title := EmptyString;
          epic_status := Str EmptyString; stories := [] |}
       (epics scenario_snapshot).



(** ** The rest of the server *)

(** [s.endswith(suffix)] *)
Definition endswith (s suffix : string) : bool :=
  (String.length suffix <=? String.length s)%nat
  && (substring (String.length s - String.length suffix) (String.length suffix) s
      =? suffix).

(** What [file_watcher] reads besides the files of the resolver: the
    names in a directory and modification times, either of which may
    raise [OSError].  A time is a count of clock ticks: the code only
    compares times. *)
Record disk : Type := {
  listdir : string -> outcome (list string);
  getmtime : string -> outcome Z
}.

(** One turn of the loop of [get_story_files_mtime]. *)
Definition newer_story_file (d : disk) (dir_path : string) (max_mtime : Z)
  (filename : string) : Z :=
  if endswith filename ".md" && negb (startswith filename "epic-") then
    match getmtime d (Path.join dir_path filename) with
    | Returns mtime => if (mtime >? max_mtime)%Z then mtime else max_mtime
    | Raises _ => max_mtime
    end
  else max_mtime.

Definition get_story_files_mtime (w : world) (d : disk) (dir_path : string) : Z :=
  if (dir_path =? EmptyString) || negb (isdir w dir_path) then 0%Z
  else match listdir d dir_path with
       | Returns filenames => foldl (newer_story_file d dir_path) 0%Z filenames
       | Raises _ => 0%Z
       end.

(** One pass of the loop of [file_watcher], with what it reads from the
    disk. *)
Definition file_watcher_pass (w : world) (d : disk) (yaml_path : string)
  (failing : gset nat) (s : Server.server) : Server.server :=
  Server.watch w yaml_path
    {| Server.current_modified := getmtime d yaml_path;
       Server.current_story_modified := get_story_files_mtime w d (Server.story_dir s);
       Server.failing := failing |} s.

(** [main] up to the start of the watcher: [sys.exit(1)] when the file
    does not exist, an exception that nothing catches, or the globals of
    the server that starts. *)
Inductive startup : Type :=
| Exits (code : Z)
| Crashes (exception : string)
| Serves (s : Server.server).

Definition main (w : world) (d : disk) (yaml_file : string) : startup :=
  if negb (exists_ w yaml_file) then Exits 1
  else
    match getmtime d yaml_file with
    | Raises e => Crashes e
    | Returns modified =>
        match parse_sprint_status w yaml_file with
        | Raises e => Crashes e
        | Returns initial_data =>
            let dir :=
              match _story_dir initial_data with Some x => x | None => EmptyString end in
            Serves (Server.initial dir modified (get_story_files_mtime w d dir))
        end
    end.

(** The body of [websocket_handler] after the viewer was added: either
    the handler goes on waiting for messages, or it has ended and its
    [finally] block has run. *)
Inductive handler : Type :=
| Listening (s : Server.server)
| Finished (s : Server.server).

(** [data = parse_sprint_status(yaml_path)] and [await websocket.send(...)]:
    an exception of either, caught or not, ends the handler through the
    [finally] block. *)
Definition answer (w : world) (yaml_path : string) (failing : gset nat)
  (websocket : nat) (s : Server.server) : handler :=
  match parse_sprint_status w yaml_path with
  | Raises _ => Finished (Server.disconnect websocket s)
  | Returns data =>
      let result := Server.send failing websocket in
      let s := Server.record_sends [(websocket, Server.send_data data, result)] s in
      match result with
      | Server.Delivered => Listening s
      | Server.SendRaised => Finished (Server.disconnect websocket s)
      end
  end.

(** [websocket_handler] from its start to the loop over the messages:
    the viewer is added, the source resolved and the first payload sent. *)
Definition websocket_handler (w : world) (yaml_path : string) (failing : gset nat)
  (websocket : nat) (s : Server.server) : handler :=
  answer w yaml_path failing websocket (Server.connect websocket s).

(** The groups that a mapping opens, in the order in which its entries
    first refer to them; [seen] are the groups opened before. *)
Fixpoint first_seen (seen : list string) (dev : list (string * yaml)) : list string :=
  match dev with
  | [] => []
  | kv :: rest =>
      match group_of kv.1 with
      | Some g =>
          if decide (g ∈ seen) then first_seen seen rest
          else g :: first_seen (seen ++ [g]) rest
      | None => first_seen seen rest
      end
  end.

(** A directory with three story files, a group file and a note. *)
Definition example_disk : disk :=
  {| listdir := fun path =>
       if path =? "docs"
       then Returns ["1-1-setup.md"; "epic-1.md"; "notes.txt"; "1-2-auth.md"; "gone.md"]
       else Raises "[Errno 2] No such file or directory";
     getmtime := fun path =>
       if path =? "docs/sprint-status.yaml" then Returns 50%Z
       else if path =? "docs/1-1-setup.md" then Returns 100%Z
       else if path =? "docs/epic-1.md" then Returns 900%Z
       else if path =? "docs/notes.txt" then Returns 800%Z
       else if path =? "docs/1-2-auth.md" then Returns 300%Z
       else Raises "[Errno 2] No such file or directory" |}.

(** The scenario with its directory [docs] in place. *)
Definition scenario_on_disk : world :=
  {| fs := fun path =>
       if path =? "docs" then Some Dir
       else if path =? "docs/sprint-status.yaml" then Some (Text EmptyString)
       else fs scenario path;
     safe_load := safe_load scenario |}.

(** A character that a normalized status is made of: no space, no
    upper-case letter, no underscore. *)
Definition plain_char (c : ascii) : bool :=
  negb (isspace c) && negb (isupper c) && negb (Ascii.eqb c "_"%char).

(** A line without its end, and the end of a line. *)
Definition no_newline (line : string) : bool :=
  all_chars (fun c => negb (Ascii.eqb c Re.newline)) line.

Definition line_end : string := String Re.newline EmptyString.

(** A line that is not a status line. *)
Definition other_line (line : string) : Prop :=
  no_newline line = true /\ Re.match_status (line ++ line_end) = None.

(** A story document whose status line is the eleventh line. *)
Definition late_status : world :=
  sprint [("1-1-setup", Str "backlog")]
    [("docs/1-1-setup.md",
      Text (text_of (replicate 10 "filler") ++ text_of ["Status: done"]))].

(** A project whose stories are in [proj/stories], one level above the
    directory of the sprint file [proj/docs/sprint-status.yaml]. *)
Definition nested : world :=
  {| fs := fun path => if path =? "proj/stories" then Some Dir else None;
     safe_load := fun _ => LoadFails "not used" |}.

(** The first story of the scenario. *)
Definition scenario_story : story :=
  Eval vm_compute in
    hd {| story_key := EmptyString; story_title := EmptyString;
          story_status := Str EmptyString; file_status := None;
          yaml_status := None; status_mismatch := None |}
       (stories scenario_epic).

(** A story with a given key. *)
Definition story_with_key (key : string) : story :=
  {| story_key := key; story_title := key; story_status := Str "backlog";
     file_status := None; yaml_status := None; status_mismatch := None |}.

(** The test of [get_story_files_mtime] on a file name. *)
Definition is_story_file (filename : string) : bool :=
  endswith filename ".md" && negb (startswith filename "epic-").

(** [statusClass] of the page, [status.replace(/_/g, '-')], for a status
    that is a string. *)
Definition statusClass (status : string) : string := replace "_" "-" status.

(** [status.replace(/[-_]/g, ' ')] *)
Fixpoint spaced (status : string) : string :=
  match status with
  | EmptyString => EmptyString
  | String c rest =>
      String (if Ascii.eqb c "-" || Ascii.eqb c "_" then " "%char else c) (spaced rest)
  end.

Section Labels.

(** [String.prototype.toUpperCase], which the page leaves to the browser. *)
Variable toUpperCase : string -> string.

Definition formatStatus (status : string) : string := toUpperCase (spaced status).

End Labels.

(** An entry of a group that comes after an item of the group. *)
Definition late_entry_dev : list (string * yaml) :=
  [("3-1-first", Str "done"); ("epic-3", Str "done")].

(** The story directory after the block under [if changed:]: the one of
    the new snapshot if it names one, else the one before. *)
Definition next_story_dir (w : world) (yaml_path : string) (dir : string) : string :=
  match parse_sprint_status w yaml_path with
  | Returns data => match _story_dir data with Some x => x | None => dir end
  | Raises _ => dir
  end.

(** A viewer comes and leaves, and the countdown runs out. *)
Definition one_visit_and_timeout : list Server.event :=
  [Server.Connect 1; Server.Disconnect 1; Server.Sleep 30; Server.Wake 0].

(** * Properties *)

Set Warnings "-clear-no-such-hyp".

(** ** Strings *)

Section StringFacts.
Import Re.

Lemma rstrip_all_space s : all_chars isspace (rstrip s) = true -> rstrip s = EmptyString.
Proof.
  induction s as [|c s IH]; simpl; [done|].
  destruct (rstrip s) as [|d r] eqn:E.
  - destruct (isspace c) eqn:Hc; [done|]. simpl. by rewrite Hc.
  - simpl. intros H. apply andb_true_iff in H as [_ H].
    simpl in IH. by specialize (IH H).
Qed.

Lemma split_nil_all_space s : split s = [] -> all_chars isspace s = true.
Proof.
  induction s as [|c s IH]; simpl; [done|].
  destruct (isspace c); [exact IH|].
  destruct s as [|d s']; [done|].
  destruct (isspace d); [done|].
  by destruct (split (String d s')).
Qed.

Lemma split_no_empty_word s : Forall (fun word => word <> EmptyString) (split s).
Proof.
  induction s as [|c s IH]; simpl; [constructor|].
  destruct (isspace c); [exact IH|].
  destruct s as [|d s']; [by repeat constructor|].
  destruct (isspace d); [by constructor|].
  destruct (split (String d s')) as [|word words]; [by repeat constructor|].
  inversion IH; subst. by constructor.
Qed.

Lemma strip_first_word s :
  strip s <> EmptyString -> hd EmptyString (split (strip s)) <> EmptyString.
Proof.
  intros Hne. unfold strip in *.
  destruct (split (rstrip (lstrip s))) as [|word words] eqn:E.
  - apply split_nil_all_space, rstrip_all_space in E. contradiction.
  - pose proof (split_no_empty_word (rstrip (lstrip s))) as H.
    rewrite E in H. by inversion H.
Qed.

Lemma replace_empty a b s : replace a b s = EmptyString -> s = EmptyString.
Proof. by destruct s. Qed.

Lemma in_tuple_In x t : in_tuple x t = true -> In x t.
Proof.
  unfold in_tuple. intros H. apply existsb_exists in H as (y & Hy & E).
  apply String.eqb_eq in E. by subst.
Qed.

Lemma In_in_tuple x t : In x t -> in_tuple x t = true.
Proof.
  intros H. apply existsb_exists. exists x. split; [done|]. apply String.eqb_refl.
Qed.

End StringFacts.

(** ** normalize_status *)


(** A normalized status is never the empty string, so the test
    [if file_status] only separates [None] from a status. *)
Lemma normalize_status_nonempty s : normalize_status s <> EmptyString.
Proof.
  unfold normalize_status.
  set (raw := strip (Re.sub_paren_note (strip (lower s)))).
  destruct (in_tuple raw closed_set) eqn:E.
  { apply in_tuple_In in E. intros ->. by repeat (destruct E as [E|E]; [done|]). }
  repeat match goal with
         | |- (if ?b then _ else _) <> _ => destruct b; [done|]
         end.
  intros H. apply replace_empty in H.
  destruct (raw =? EmptyString) eqn:Hraw; simpl in H; [done|].
  apply String.eqb_neq in Hraw. by apply (strip_first_word _ Hraw).
Qed.




(** ** The grouping loop *)

Lemma group_entries_str w dir dev st :
  group_entries w dir (str_entries dev) st = Returns (group_all w dir dev st).
Proof.
  revert st. induction dev as [|[k v] dev IH]; intros st; simpl; [done|].
  apply IH.
Qed.

Lemma visit_classify w dir st k v :
  visit w dir st k v =
  match classify k with
  | Retrospective | Unclassified => st
  | GroupEntry =>
      ensure_epic k ("Epic " ++ List.last (split_on "-" k) EmptyString)%string v st
  | Item p0 =>
      append_story ("epic-" ++ p0)%string (story_entry w dir k (split_on "-" k) v)
        (ensure_epic ("epic-" ++ p0)%string ("Epic " ++ p0)%string (Str "in-progress") st)
  end.
Proof.
  unfold visit, classify.
  destruct (contains "retrospective" k); [done|].
  destruct (is_epic_key k); [done|].
  destruct (split_on "-" k) as [|p0 ps]; [done|].
  by destruct ((2 <=? List.length (p0 :: ps))%nat && isdigit p0).
Qed.

Lemma add_stories_nil e : add_stories [] e = e.
Proof. destruct e. unfold add_stories. simpl. by rewrite app_nil_r. Qed.

Lemma add_stories_app l1 l2 e : add_stories l2 (add_stories l1 e) = add_stories (l1 ++ l2) e.
Proof. unfold add_stories. simpl. by rewrite app_assoc. Qed.

Lemma discovered_cons w dir k v dev g :
  discovered w dir ((k, v) :: dev) g =
  (if decide (item_group k = Some g)
   then [story_entry w dir k (split_on "-" k) v] else []) ++ discovered w dir dev g.
Proof. done. Qed.

(** What one turn of the loop does to the entry of a group. *)
Lemma visit_lookup w dir st k v g :
  by_key (visit w dir st k v) !! g =
  match by_key st !! g with
  | Some e => Some (add_stories (discovered w dir [(k, v)] g) e)
  | None => add_stories (discovered w dir [(k, v)] g) <$> opened_by k v g
  end.
Proof.
  rewrite visit_classify. unfold discovered, opened_by, item_group. simpl.
  destruct (classify k) as [| |p0|] eqn:Hc; simpl.
  - destruct (by_key st !! g); [by rewrite add_stories_nil|done].
  - unfold ensure_epic.
    destruct (by_key st !! k) eqn:Hk; simpl.
    + destruct (by_key st !! g) eqn:Hg; [by rewrite add_stories_nil|].
      case_decide; [congruence|done].
    + case_decide as Hkg.
      * subst g. rewrite lookup_insert_eq, Hk. simpl. by rewrite add_stories_nil.
      * rewrite lookup_insert_ne by done.
        destruct (by_key st !! g); [by rewrite add_stories_nil|done].
  - unfold append_story, ensure_epic. simpl.
    destruct (by_key st !! ("epic-" ++ p0)%string) eqn:Hk; simpl.
    + destruct (decide (("epic-" ++ p0)%string = g)) as [<-|Hne].
      * rewrite lookup_alter_eq, Hk. simpl.
        rewrite decide_True by done. by rewrite app_nil_r.
      * rewrite lookup_alter_ne by done.
        rewrite decide_False by congruence. rewrite app_nil_r.
        destruct (by_key st !! g); [by rewrite add_stories_nil|done].
    + destruct (decide (("epic-" ++ p0)%string = g)) as [<-|Hne].
      * rewrite lookup_alter_eq, lookup_insert_eq, Hk. simpl.
        rewrite decide_True by done. by rewrite app_nil_r.
      * rewrite lookup_alter_ne, lookup_insert_ne by done.
        rewrite decide_False by congruence. rewrite app_nil_r.
        destruct (by_key st !! g); [by rewrite add_stories_nil|done].
  - destruct (by_key st !! g); [by rewrite add_stories_nil|done].
Qed.

(** The entry of a group after the whole loop. *)
Lemma group_all_lookup w dir dev st g :
  by_key (group_all w dir dev st) !! g =
  match by_key st !! g with
  | Some e => Some (add_stories (discovered w dir dev g) e)
  | None => add_stories (discovered w dir dev g) <$> first_opened dev g
  end.
Proof.
  revert st. induction dev as [|[k v] dev IH]; intros st.
  - simpl. destruct (by_key st !! g); [by rewrite add_stories_nil|done].
  - unfold group_all in *. simpl foldl. rewrite IH, visit_lookup.
    rewrite discovered_cons. simpl first_opened.
    change (discovered w dir [(k, v)] g) with
      ((if decide (item_group k = Some g)
        then [story_entry w dir k (split_on "-" k) v] else []) ++ []).
    rewrite app_nil_r.
    destruct (by_key st !! g) as [e|]; simpl.
    + by rewrite add_stories_app.
    + destruct (opened_by k v g) as [e|] eqn:Ho; simpl; [by rewrite add_stories_app|].
      rewrite decide_False; [done|].
      intros Hi. unfold opened_by, item_group in *.
      destruct (classify k); try done. rewrite decide_True in Ho; congruence.
Qed.

Lemma ensure_epic_well_ordered k t v st :
  well_ordered st -> well_ordered (ensure_epic k t v st).
Proof.
  intros [Hnd Hdom]. unfold ensure_epic.
  destruct (by_key st !! k) eqn:Hk; [done|]. split; simpl.
  - apply NoDup_app. split_and!; [done| |apply NoDup_singleton].
    intros g Hg ->%list_elem_of_singleton.
    apply Hdom in Hg. rewrite Hk in Hg. by destruct Hg.
  - intros g. rewrite elem_of_app, list_elem_of_singleton, Hdom.
    destruct (decide (k = g)) as [<-|Hne].
    + rewrite lookup_insert_eq. split; [by eauto|by right].
    + rewrite lookup_insert_ne by done. split; [by intros [?|?]|by left].
Qed.

Lemma append_story_well_ordered k s st :
  well_ordered st -> well_ordered (append_story k s st).
Proof.
  intros [Hnd Hdom]. split; simpl; [done|].
  intros g. rewrite Hdom.
  destruct (decide (k = g)) as [<-|Hne].
  - rewrite lookup_alter_eq. by rewrite fmap_is_Some.
  - by rewrite lookup_alter_ne.
Qed.

Lemma group_all_well_ordered w dir dev st :
  well_ordered st -> well_ordered (group_all w dir dev st).
Proof.
  revert st. induction dev as [|[k v] dev IH]; intros st Hst; [done|].
  apply IH. simpl. rewrite visit_classify.
  destruct (classify k); auto using ensure_epic_well_ordered, append_story_well_ordered.
Qed.

Lemma no_groups_well_ordered : well_ordered no_groups.
Proof.
  split; [constructor|]. intros g. simpl. rewrite lookup_empty.
  split; [by intros ?%elem_of_nil|by intros []].
Qed.

Lemma first_opened_key dev g e : first_opened dev g = Some e -> epic_key e = g.
Proof.
  induction dev as [|[k v] dev IH]; simpl; [done|].
  destruct (opened_by k v g) as [e'|] eqn:Ho; [|done].
  intros [= <-]. unfold opened_by in Ho.
  destruct (classify k); try done; case_decide; try done; by injection Ho as <-.
Qed.

(** The result of a resolution pass on a well-shaped source. *)
Lemma parse_resolves w yaml_file dev dir :
  resolves w yaml_file dev dir ->
  parse_sprint_status w yaml_file =
  Returns {| error := None;
             epics := ordered_epics (group_all w dir dev no_groups);
             _story_dir := Some dir |}.
Proof.
  intros (data & Hload & Htruthy & Hdir & Hdev).
  unfold parse_sprint_status. rewrite Hload, Htruthy. simpl.
  rewrite Hdir. simpl. rewrite Hdev. simpl.
  by rewrite group_entries_str.
Qed.

(** The epics of the snapshot: each group that some entry opens, once,
    with its discovered stories sorted. *)
Lemma ordered_epics_spec w dir dev e :
  e ∈ ordered_epics (group_all w dir dev no_groups) <->
  exists e0, first_opened dev (epic_key e) = Some e0
             /\ e = sort_stories (add_stories (discovered w dir dev (epic_key e)) e0).
Proof.
  pose proof (group_all_well_ordered w dir dev _ no_groups_well_ordered) as [_ Hdom].
  unfold ordered_epics. rewrite list_elem_of_omap. split.
  - intros (g & Hg & Hlook). rewrite lookup_fmap, group_all_lookup in Hlook.
    simpl in Hlook. rewrite lookup_empty in Hlook.
    destruct (first_opened dev g) as [e0|] eqn:Hf; [|done].
    simpl in Hlook. injection Hlook as <-. simpl.
    rewrite (first_opened_key _ _ _ Hf). eauto.
  - intros (e0 & Hf & He). exists (epic_key e).
    assert (Hlook : by_key (group_all w dir dev no_groups) !! epic_key e
                    = Some (add_stories (discovered w dir dev (epic_key e)) e0)).
    { rewrite group_all_lookup. simpl. rewrite lookup_empty, Hf. done. }
    split.
    + apply Hdom. by rewrite Hlook.
    + rewrite lookup_fmap, Hlook. simpl. by rewrite He at 2.
Qed.

Lemma ordered_epics_NoDup w dir dev :
  NoDup (epic_key <$> ordered_epics (group_all w dir dev no_groups)).
Proof.
  pose proof (group_all_well_ordered w dir dev _ no_groups_well_ordered) as [Hnd _].
  unfold ordered_epics.
  set (st := group_all w dir dev no_groups) in *.
  assert (Hkey : forall g e, (sort_stories <$> by_key st) !! g = Some e -> epic_key e = g).
  { intros g e. unfold st. rewrite lookup_fmap, group_all_lookup. simpl.
    rewrite lookup_empty.
    destruct (first_opened dev g) as [e0|] eqn:Hf; [|done].
    simpl. intros [= <-]. simpl. by apply first_opened_key in Hf. }
  induction Hnd as [|g order Hnotin Hnd IH]; simpl; [constructor|].
  destruct ((sort_stories <$> by_key st) !! g) as [e|] eqn:Hg; [|done].
  simpl. constructor; [|done].
  rewrite (Hkey _ _ Hg). intros Hin. apply Hnotin.
  apply list_elem_of_fmap in Hin as (e' & -> & Hin).
  apply list_elem_of_omap in Hin as (g' & Hg' & Hlook).
  by rewrite (Hkey _ _ Hlook).
Qed.

(** ** The sorting pass *)

Section Sorting.
Context {A K : Type} (lt : K -> K -> bool) (f : A -> K).

Lemma insert_sorted_Permutation x l : insert_sorted lt f x l ≡ₚ x :: l.
Proof.
  induction l as [|y l IH]; simpl; [done|].
  destruct (lt (f y) (f x)); [|done].
  rewrite IH. apply Permutation_swap.
Qed.

Lemma sort_by_Permutation l : sort_by lt f l ≡ₚ l.
Proof.
  induction l as [|x l IH]; simpl; [done|].
  unfold sort_by in *. simpl. by rewrite insert_sorted_Permutation, IH.
Qed.

Section Stable.
Context `{EqDecision K}.
Hypothesis lt_irrefl : forall k, lt k k = false.



End Stable.

Section Sorted.
Variable le : K -> K -> Prop.
Hypothesis lt_le : forall a b, lt a b = true -> le a b.
Hypothesis nlt_le : forall a b, lt a b = false -> le b a.
Hypothesis le_trans : forall a b c, le a b -> le b c -> le a c.

Lemma insert_sorted_StronglySorted x l :
  StronglySorted (fun a b => le (f a) (f b)) l ->
  StronglySorted (fun a b => le (f a) (f b)) (insert_sorted lt f x l).
Proof.
  induction l as [|y l IH]; simpl; intros Hs.
  - by repeat constructor.
  - apply StronglySorted_inv in Hs as [Hs Hall].
    destruct (lt (f y) (f x)) eqn:Hlt.
    + constructor; [by apply IH|].
      rewrite insert_sorted_Permutation. constructor; [by apply lt_le|done].
    + assert (Hxy : le (f x) (f y)) by by apply nlt_le.
      constructor; [by constructor|].
      constructor; [done|].
      eapply Forall_impl; [exact Hall|]. intros z Hz. simpl in *. eauto.
Qed.

Lemma sort_by_StronglySorted l :
  StronglySorted (fun a b => le (f a) (f b)) (sort_by lt f l).
Proof.
  induction l as [|x l IH]; [constructor|].
  unfold sort_by in *. simpl. by apply insert_sorted_StronglySorted.
Qed.

End Sorted.
End Sorting.

Lemma code_inj x y : code x = code y -> x = y.
Proof.
  unfold code. intros H.
  by rewrite <- (ascii_nat_embedding x), <- (ascii_nat_embedding y), H.
Qed.

Lemma str_lt_irrefl a : str_lt a a = false.
Proof.
  induction a as [|c a IH]; simpl; [done|].
  rewrite IH, Nat.ltb_irrefl. by rewrite andb_false_r.
Qed.

Lemma str_lt_total a b : str_lt a b = false -> a = b \/ str_lt b a = true.
Proof.
  revert b. induction a as [|x a IH]; intros [|y b]; simpl; try by auto.
  intros H. apply orb_false_iff in H as [H1 H2].
  apply Nat.ltb_ge in H1.
  destruct (decide (code x = code y)) as [E|E].
  - rewrite E, Nat.eqb_refl in H2. simpl in H2.
    destruct (IH _ H2) as [->|Hlt].
    + left. by rewrite (code_inj _ _ E).
    + right. rewrite E, Nat.eqb_refl, Hlt. by rewrite orb_true_r.
  - right. apply orb_true_iff. left. apply Nat.ltb_lt. lia.
Qed.

Lemma str_lt_trans a b c : str_lt a b = true -> str_lt b c = true -> str_lt a c = true.
Proof.
  revert b c. induction a as [|x a IH]; intros [|y b] [|z c]; simpl; try done.
  rewrite !orb_true_iff, !andb_true_iff, !Nat.ltb_lt, !Nat.eqb_eq.
  intros [H1|[H1 H1']] [H2|[H2 H2']]; try (left; lia).
  right. split; [lia|]. eauto.
Qed.


Lemma sort_key_lt_order a b : sort_key_lt a b = true -> key_order a b.
Proof.
  destruct a as [a1 a2|ka], b as [b1 b2|kb]; simpl; try done; [|by right].
  rewrite orb_true_iff, andb_true_iff, !Z.ltb_lt, Z.eqb_eq. lia.
Qed.

Lemma sort_key_nlt_order a b : sort_key_lt a b = false -> key_order b a.
Proof.
  destruct a as [a1 a2|ka], b as [b1 b2|kb]; simpl; try done.
  - rewrite orb_false_iff, andb_false_iff, !Z.ltb_ge, Z.eqb_neq. lia.
  - intros [->|H]%str_lt_total; auto.
Qed.

Lemma key_order_trans a b c : key_order a b -> key_order b c -> key_order a c.
Proof.
  destruct a as [a1 a2|ka], b as [b1 b2|kb], c as [c1 c2|kc]; simpl; try done; [lia|].
  intros [->|H1] [->|H2]; auto. right. by eapply str_lt_trans.
Qed.

(** ** Story documents *)

Lemma scan_status_first_lines n text :
  scan_status n text =
  (fun group1 => normalize_status (lower (strip group1)))
    <$> first_status (first_lines n text).
Proof.
  revert text. induction n as [|n IH]; intros text; simpl; [done|].
  destruct (readline text) as [line rest].
  destruct (line =? EmptyString); [done|]. simpl.
  destruct (Re.match_status line); [done|]. apply IH.
Qed.

Lemma get_status_document_status w dir key :
  get_status_from_story_file w dir key = document_status w dir key.
Proof.
  unfold get_status_from_story_file, document_status, exists_.
  destruct (fs w _) as [[| |content]|]; cbn -[scan_status first_lines]; try done.
  apply scan_status_first_lines.
Qed.

Lemma document_status_nonempty w dir key d :
  document_status w dir key = Some d -> d <> EmptyString.
Proof.
  unfold document_status.
  destruct (fs w _) as [[| |content]|]; try done.
  destruct (first_status _); [|done]. simpl. intros [= <-].
  apply normalize_status_nonempty.
Qed.

(** A document that is missing, a directory, or unreadable gives no
    status and no exception. *)
Lemma unreadable_document_swallowed w dir key :
  (forall content, fs w (Path.join dir (key ++ ".md")%string) <> Some (Text content)) ->
  get_status_from_story_file w dir key = None.
Proof.
  intros H. rewrite get_status_document_status. unfold document_status.
  destruct (fs w _) as [[| |content]|]; try done. by destruct (H content).
Qed.

(** The fields of a story entry, by the document status. *)
Lemma story_entry_status w dir key parts v :
  story_status (story_entry w dir key parts v) =
  match document_status w dir key with Some d => Str d | None => v end.
Proof.
  unfold story_entry. rewrite get_status_document_status. simpl.
  destruct (document_status w dir key) as [d|] eqn:Hd; [|done].
  apply document_status_nonempty, String.eqb_neq in Hd. by rewrite Hd.
Qed.

Lemma str_ne_spec d v : str_ne d v = true <-> Str d <> v.
Proof.
  unfold str_ne, Str. destruct v as [[| | |b]| |]; try done.
  rewrite negb_true_iff, String.eqb_neq. split; congruence.
Qed.

Lemma story_entry_mismatch w dir key parts v :
  let disagree :=
    match document_status w dir key with
    | Some d => str_ne d v
    | None => false
    end in
  status_mismatch (story_entry w dir key parts v) = (if disagree then Some true else None)
  /\ file_status (story_entry w dir key parts v)
     = (if disagree then document_status w dir key else None)
  /\ yaml_status (story_entry w dir key parts v) = (if disagree then Some v else None).
Proof.
  unfold story_entry. rewrite get_status_document_status. simpl.
  destruct (document_status w dir key) as [d|] eqn:Hd; [|done].
  apply document_status_nonempty, String.eqb_neq in Hd. rewrite Hd. simpl.
  by destruct (str_ne d v).
Qed.

Lemma story_entry_key w dir key parts v : story_key (story_entry w dir key parts v) = key.
Proof. done. Qed.

(** ** The stories of a snapshot *)

Lemma first_opened_stories dev g e : first_opened dev g = Some e -> stories e = [].
Proof.
  induction dev as [|[k v] dev IH]; simpl; [done|].
  destruct (opened_by k v g) as [e'|] eqn:Ho; [|done].
  intros [= <-]. unfold opened_by in Ho.
  destruct (classify k); try done; case_decide; try done; by injection Ho as <-.
Qed.

Lemma epic_stories w dir dev e :
  e ∈ ordered_epics (group_all w dir dev no_groups) ->
  stories e = sort_by sort_key_lt story_sort_key (discovered w dir dev (epic_key e)).
Proof.
  intros (e0 & Hf & He)%ordered_epics_spec. rewrite He at 1. simpl.
  by rewrite (first_opened_stories _ _ _ Hf).
Qed.

Lemma discovered_elem w dir dev g s :
  s ∈ discovered w dir dev g <->
  exists k v, (k, v) ∈ dev /\ item_group k = Some g
              /\ s = story_entry w dir k (split_on "-" k) v.
Proof.
  induction dev as [|[k v] dev IH].
  - simpl. rewrite elem_of_nil. split; [done|]. by intros (? & ? & ?%elem_of_nil & _).
  - rewrite discovered_cons, elem_of_app, IH. split.
    + intros [H|(k' & v' & Hin & Hg & ->)].
      * case_decide; [|by apply elem_of_nil in H].
        apply list_elem_of_singleton in H as ->. exists k, v. by rewrite elem_of_cons; auto.
      * exists k', v'. by rewrite elem_of_cons; auto.
    + intros (k' & v' & Hin & Hg & ->). apply elem_of_cons in Hin as [[= -> ->]|Hin].
      * left. rewrite decide_True by done. by apply list_elem_of_singleton.
      * right. eauto.
Qed.

Lemma first_opened_is_Some dev k v g :
  (k, v) ∈ dev -> group_of k = Some g -> is_Some (first_opened dev g).
Proof.
  induction dev as [|[k' v'] dev IH]; [by intros ?%elem_of_nil|].
  intros Hin Hg. simpl. destruct (opened_by k' v' g) eqn:Ho; [done|].
  apply elem_of_cons in Hin as [[= -> ->]|Hin]; [|auto].
  unfold opened_by, group_of in *. destruct (classify k'); try done.
  - injection Hg as ->. by rewrite decide_True in Ho.
  - injection Hg as Hg. by rewrite decide_True in Ho.
Qed.

Lemma item_group_group_of k g : item_group k = Some g -> group_of k = Some g.
Proof. unfold item_group, group_of. by destruct (classify k). Qed.

Lemma all_stories_elem snap s :
  s ∈ all_stories snap <-> exists e, e ∈ epics snap /\ s ∈ stories e.
Proof.
  unfold all_stories. rewrite list_elem_of_In, in_concat. split.
  - intros (l & Hl & Hs). apply list_elem_of_In, list_elem_of_fmap in Hl as (e & -> & He).
    exists e. split; [done|]. by apply list_elem_of_In.
  - intros (e & He & Hs). exists (stories e). split; [|by apply list_elem_of_In].
    apply list_elem_of_In, list_elem_of_fmap. eauto.
Qed.

(** An item of the mapping is among the stories of its group. *)
Lemma item_in_its_group w dir dev k v p0 :
  (k, v) ∈ dev -> classify k = Item p0 ->
  exists e, e ∈ ordered_epics (group_all w dir dev no_groups)
            /\ epic_key e = ("epic-" ++ p0)%string
            /\ story_entry w dir k (split_on "-" k) v ∈ stories e.
Proof.
  intros Hin Hc.
  assert (Hg : item_group k = Some ("epic-" ++ p0)%string).
  { unfold item_group. by rewrite Hc. }
  destruct (first_opened_is_Some dev k v _ Hin (item_group_group_of _ _ Hg)) as [e0 He0].
  set (e := sort_stories (add_stories (discovered w dir dev ("epic-" ++ p0)%string) e0)).
  assert (Hkey : epic_key e = ("epic-" ++ p0)%string).
  { simpl. by apply first_opened_key in He0. }
  assert (He : e ∈ ordered_epics (group_all w dir dev no_groups)).
  { apply ordered_epics_spec. exists e0. by rewrite Hkey. }
  exists e. split_and!; [done..|].
  rewrite (epic_stories _ _ _ _ He), sort_by_Permutation, Hkey.
  apply discovered_elem. eauto.
Qed.

(** Every story of a snapshot is the entry of an item of the mapping. *)
Lemma story_from_item w dir dev e s :
  e ∈ ordered_epics (group_all w dir dev no_groups) -> s ∈ stories e ->
  exists k v, (k, v) ∈ dev /\ item_group k = Some (epic_key e)
              /\ s = story_entry w dir k (split_on "-" k) v.
Proof.
  intros He Hs. rewrite (epic_stories _ _ _ _ He), sort_by_Permutation in Hs.
  by apply discovered_elem in Hs.
Qed.

Lemma NoDup_fst_agree (dev : list (string * yaml)) k v v' :
  NoDup dev.*1 -> (k, v) ∈ dev -> (k, v') ∈ dev -> v = v'.
Proof.
  induction dev as [|[k0 v0] dev IH]; [by intros _ ?%elem_of_nil|].
  simpl. intros [Hnotin Hnd]%NoDup_cons Hin Hin'.
  assert (Hfst : forall u, (k0, u) ∈ dev -> False).
  { intros u Hu. apply Hnotin, list_elem_of_fmap. by exists (k0, u). }
  apply elem_of_cons in Hin as [E|Hin], Hin' as [E'|Hin']; simplify_eq; eauto.
  - by destruct (Hfst _ Hin').
  - by destruct (Hfst _ Hin).
Qed.

Lemma filter_discovered_absent w dir dev g key :
  key ∉ dev.*1 -> filter (fun s => story_key s = key) (discovered w dir dev g) = [].
Proof.
  induction dev as [|[k v] dev IH]; [done|].
  rewrite fmap_cons. intros [Hne Hnotin]%not_elem_of_cons.
  rewrite discovered_cons, filter_app, IH by done. rewrite app_nil_r.
  case_decide; [|done]. rewrite filter_cons, decide_False; [done|].
  simpl in *. congruence.
Qed.

Lemma filter_discovered_one w dir dev g key v :
  NoDup dev.*1 -> (key, v) ∈ dev -> item_group key = Some g ->
  filter (fun s => story_key s = key) (discovered w dir dev g)
  = [story_entry w dir key (split_on "-" key) v].
Proof.
  induction dev as [|[k0 v0] dev IH]; [by intros _ ?%elem_of_nil|].
  rewrite fmap_cons. intros [Hnotin Hnd]%NoDup_cons Hin Hg.
  rewrite discovered_cons, filter_app.
  apply elem_of_cons in Hin as [[= <- <-]|Hin].
  - rewrite decide_True by done. rewrite filter_cons, decide_True by done.
    by rewrite filter_discovered_absent.
  - rewrite IH by done.
    assert (k0 <> key).
    { intros ->. apply Hnotin, list_elem_of_fmap. by exists (key, v). }
    case_decide; [|done]. by rewrite filter_cons, decide_False.
Qed.

Lemma filter_discovered_other w dir dev g key :
  item_group key <> Some g ->
  filter (fun s => story_key s = key) (discovered w dir dev g) = [].
Proof.
  intros Hne. induction dev as [|[k v] dev IH]; [done|].
  rewrite discovered_cons, filter_app, IH, app_nil_r.
  case_decide; [|done]. rewrite filter_cons, decide_False; [done|].
  simpl. congruence.
Qed.

Lemma filter_concat_one {B} (D : string -> list B) (P : B -> Prop)
  `{forall x, Decision (P x)} keys g0 :
  NoDup keys -> g0 ∈ keys -> (forall g, g <> g0 -> filter P (D g) = []) ->
  filter P (List.concat (D <$> keys)) = filter P (D g0).
Proof.
  intros Hnd Hin Hother. induction Hnd as [|g keys Hnotin Hnd IH]; [by apply elem_of_nil in Hin|].
  rewrite fmap_cons, concat_cons, filter_app. apply elem_of_cons in Hin as [->|Hin].
  - assert (Hrest : filter P (List.concat (D <$> keys)) = []).
    { clear IH Hnd. induction keys as [|g' keys IH]; [done|].
      apply not_elem_of_cons in Hnotin as [Hne Hnotin].
      rewrite fmap_cons, concat_cons, filter_app, Hother, IH by done. done. }
    by rewrite Hrest, app_nil_r.
  - rewrite Hother, IH; [done..|]. intros ->. done.
Qed.

Lemma all_stories_Permutation w dir dev (l : list epic) :
  (forall e, e ∈ l -> e ∈ ordered_epics (group_all w dir dev no_groups)) ->
  List.concat (stories <$> l)
  ≡ₚ List.concat (discovered w dir dev <$> (epic_key <$> l)).
Proof.
  induction l as [|e l IH]; intros Hl; [done|].
  rewrite !fmap_cons, !concat_cons.
  rewrite IH by (intros; apply Hl; by apply elem_of_cons; auto).
  rewrite (epic_stories w dir dev e) by (apply Hl; by apply elem_of_cons; auto).
  by rewrite sort_by_Permutation.
Qed.

(** Each item key of a mapping without repeated keys occurs once among
    all the stories of the snapshot. *)
Lemma item_occurs_once w dir dev key v p0 :
  NoDup dev.*1 -> (key, v) ∈ dev -> classify key = Item p0 ->
  filter (fun s => story_key s = key)
    (List.concat (stories <$> ordered_epics (group_all w dir dev no_groups)))
  ≡ₚ [story_entry w dir key (split_on "-" key) v].
Proof.
  intros Hnd Hin Hc.
  assert (Hg : item_group key = Some ("epic-" ++ p0)%string).
  { unfold item_group. by rewrite Hc. }
  rewrite all_stories_Permutation by done.
  rewrite (filter_concat_one _ _ _ ("epic-" ++ p0)%string).
  - by rewrite (filter_discovered_one _ _ _ _ _ v).
  - apply ordered_epics_NoDup.
  - destruct (item_in_its_group w dir dev key v p0 Hin Hc) as (e & He & <- & _).
    by apply list_elem_of_fmap_2.
  - intros g Hne. apply filter_discovered_other. congruence.
Qed.

(** ** The resolver on a well-shaped source *)

(** A decidable statement about concrete data, settled by evaluation. *)
Ltac by_computation := apply (bool_decide_unpack _); vm_compute; exact I.

Lemma sprint_resolves dev documents :
  resolves (sprint dev documents) sprint_file dev "docs".
Proof.
  exists [(SStr "development_status", Map (str_entries dev))].
  by split_and!.
Qed.

Lemma scenario_scanned :
  document_status scenario "docs" "1-1-setup" = Some "review"
  /\ document_status scenario "docs" "1-2-auth" = None.
Proof. by vm_compute. Qed.

Lemma group_entries_returns w dir entries st st' :
  group_entries w dir entries st = Returns st' ->
  exists dev, entries = str_entries dev.
Proof.
  revert st. induction entries as [|[k v] entries IH]; intros st; simpl.
  - intros _. by exists [].
  - destruct k as [| | |key]; try done.
    intros (dev & ->)%IH. by exists ((key, v) :: dev).
Qed.

(** Every snapshot with a group comes from a well-shaped source: the
    other two results of a pass have no group. *)
Lemma parse_returns_groups w yaml_file snap e :
  parse_sprint_status w yaml_file = Returns snap -> e ∈ epics snap ->
  exists dev dir, resolves w yaml_file dev dir.
Proof.
  unfold parse_sprint_status, resolves.
  destruct (safe_load w yaml_file) as [msg|data] eqn:Hload.
  { intros [= <-] Hin. by apply elem_of_nil in Hin. }
  destruct (truthy data) eqn:Htruthy; simpl.
  2: { intros [= <-] Hin. by apply elem_of_nil in Hin. }
  destruct data as [v|l|data]; try done. simpl.
  destruct (find_story_dir _ _ _) as [dir|] eqn:Hdir; [|done]. simpl.
  destruct (dict_get data "development_status" (Map [])) as [v|l|entries] eqn:Hdev;
    try done. simpl.
  destruct (group_entries w dir entries no_groups) as [st|] eqn:Hgroup; [|done].
  apply group_entries_returns in Hgroup as (dev & ->).
  intros _ _. exists dev, dir, data. done.
Qed.

(** The two scenarios of the specification: without documents, one group
    with its two stories in order and no mismatch; with the document of
    [1-1-setup], the document wins and both statuses are kept. *)
Example scenario_without_documents :
  parse_sprint_status (sprint scenario_dev []) sprint_file =
  Returns
    {| error := None;
       epics :=
         [{| epic_key := "epic-1"; epic_title := "Epic 1";
             epic_status := Str "in-progress";
             stories :=
               [{| story_key := "1-1-setup"; story_title := "Setup";
                   story_status := Str "done"; file_status := None;
                   yaml_status := None; status_mismatch := None |};
                {| story_key := "1-2-auth"; story_title := "Auth";
                   story_status := Str "in-progress"; file_status := None;
                   yaml_status := None; status_mismatch := None |}] |}];
       _story_dir := Some "docs" |}.
Proof. by vm_compute. Qed.

Example scenario_with_document :
  stories scenario_epic =
  [{| story_key := "1-1-setup"; story_title := "Setup";
      story_status := Str "review"; file_status := Some "review";
      yaml_status := Some (Str "done"); status_mismatch := Some true |};
   {| story_key := "1-2-auth"; story_title := "Auth";
      story_status := Str "in-progress"; file_status := None;
      yaml_status := None; status_mismatch := None |}].
Proof. by vm_compute. Qed.

(** C1, the claim as stated fails: without a document the resolved status
    is the index value as it is written, ["Done"], not its normal form
    ["done"]. *)
Lemma index_status_kept_raw :
  parse_sprint_status capitalized sprint_file =
  Returns
    {| error := None;
       epics :=
         [{| epic_key := "epic-1"; epic_title := "Epic 1";
             epic_status := Str "in-progress";
             stories :=
               [{| story_key := "1-1-setup"; story_title := "Setup";
                   story_status := Str "Done"; file_status := None;
                   yaml_status := None; status_mismatch := None |}] |}];
       _story_dir := Some "docs" |}
  /\ normalize_status "Done" = "done".
Proof. by vm_compute. Qed.

(** C1, amended: for every key of the mapping that is classified as an
    item, the snapshot has a story with that key, and the resolved status
    of every such story is the normalized document status when the
    document is a readable file with a status line among its first ten
    lines, and otherwise the value of the mapping for that key as it is
    written, without normalization. *)
Theorem resolved_status_document_else_raw_index
  (w : world) (yaml_file : string) (dev : list (string * yaml)) (dir key : string)
  (v : yaml) (p0 : string) :
  resolves w yaml_file dev dir ->
  NoDup dev.*1 ->
  (key, v) ∈ dev ->
  classify key = Item p0 ->
  exists snap,
    parse_sprint_status w yaml_file = Returns snap
    /\ (exists s, s ∈ all_stories snap /\ story_key s = key)
    /\ forall s, s ∈ all_stories snap -> story_key s = key ->
         story_status s =
         match document_status w dir key with
         | Some document => Str document
         | None => v
         end.
Proof.
  intros Hres Hnd Hin Hc. eexists. split; [by apply parse_resolves|]. split.
  - destruct (item_in_its_group w dir dev key v p0 Hin Hc) as (e & He & _ & Hs).
    eexists. split; [|apply story_entry_key].
    apply all_stories_elem. by exists e.
  - intros s (e & He & Hs)%all_stories_elem <-. simpl in He.
    destruct (story_from_item _ _ _ _ _ He Hs) as (k & v' & Hin' & _ & ->).
    rewrite story_entry_key in *.
    rewrite (NoDup_fst_agree _ _ _ _ Hnd Hin Hin').
    apply story_entry_status.
Qed.

Lemma resolved_status_document_else_raw_index_witness :
  resolves scenario sprint_file scenario_dev "docs"
  /\ NoDup scenario_dev.*1
  /\ ("1-1-setup", Str "done") ∈ scenario_dev
  /\ classify "1-1-setup" = Item "1"
  /\ exists snap,
       parse_sprint_status scenario sprint_file = Returns snap
       /\ (exists s, s ∈ all_stories snap /\ story_key s = "1-1-setup")
       /\ forall s, s ∈ all_stories snap -> story_key s = "1-1-setup" ->
            story_status s =
            match document_status scenario "docs" "1-1-setup" with
            | Some document => Str document
            | None => Str "done"
            end.
Proof.
  assert (H1 : resolves scenario sprint_file scenario_dev "docs")
    by (eexists; split_and!; vm_compute; reflexivity).
  assert (H2 : NoDup scenario_dev.*1) by by_computation.
  assert (H3 : ("1-1-setup", Str "done") ∈ scenario_dev) by (do 2 right; left).
  assert (H4 : classify "1-1-setup" = Item "1") by by vm_compute.
  split_and!; [done..|].
  exact (resolved_status_document_else_raw_index _ _ _ _ _ _ _ H1 H2 H3 H4).
Defined.

(** C2, the claim as stated fails: the document says [Done] and the index
    says [Done]; both normalize to ["done"], yet the story carries the
    mismatch flag, because the index value is compared as it is written. *)
Lemma mismatch_despite_equal_normal_forms :
  parse_sprint_status capitalized_documented sprint_file =
  Returns
    {| error := None;
       epics :=
         [{| epic_key := "epic-1"; epic_title := "Epic 1";
             epic_status := Str "in-progress";
             stories :=
               [{| story_key := "1-1-setup"; story_title := "Setup";
                   story_status := Str "done"; file_status := Some "done";
                   yaml_status := Some (Str "Done");
                   status_mismatch := Some true |}] |}];
       _story_dir := Some "docs" |}
  /\ normalize_status "Done" = normalize_status "done".
Proof. by vm_compute. Qed.

(** C2, amended: a story carries [status_mismatch = True] if and only if
    its document status was obtainable and differs from the index value as
    it is written (not normalized); it then carries [file_status], the
    normalized document status, and [yaml_status], the index value as it
    is written; otherwise none of the three keys is present and only
    [status] is reported. *)
Theorem mismatch_iff_document_differs_from_raw_index
  (w : world) (yaml_file : string) (dev : list (string * yaml)) (dir key : string)
  (v : yaml) (p0 : string) :
  resolves w yaml_file dev dir ->
  NoDup dev.*1 ->
  (key, v) ∈ dev ->
  classify key = Item p0 ->
  exists snap,
    parse_sprint_status w yaml_file = Returns snap
    /\ forall s, s ∈ all_stories snap -> story_key s = key ->
         (status_mismatch s = Some true <->
          exists document, document_status w dir key = Some document /\ Str document <> v)
         /\ (status_mismatch s = Some true ->
             file_status s = document_status w dir key /\ yaml_status s = Some v)
         /\ (status_mismatch s <> Some true ->
             status_mismatch s = None /\ file_status s = None /\ yaml_status s = None).
Proof.
  intros Hres Hnd Hin Hc. eexists. split; [by apply parse_resolves|].
  intros s (e & He & Hs)%all_stories_elem <-. simpl in He.
  destruct (story_from_item _ _ _ _ _ He Hs) as (k & v' & Hin' & _ & ->).
  rewrite story_entry_key in *.
  rewrite <- (NoDup_fst_agree _ _ _ _ Hnd Hin Hin').
  destruct (story_entry_mismatch w dir k (split_on "-" k) v) as (Hm & Hf & Hy).
  rewrite Hm, Hf, Hy.
  destruct (document_status w dir k) as [d|]; simpl.
  - destruct (str_ne d v) eqn:Hne.
    + apply str_ne_spec in Hne. split_and!; [|done..]. split; [eauto|done].
    + split_and!; [|done..]. split; [done|].
      intros (? & [= <-] & Hd%str_ne_spec). congruence.
  - split_and!; [|done..]. split; [done|]. by intros (? & ? & _).
Qed.

Lemma mismatch_iff_document_differs_from_raw_index_witness :
  resolves scenario sprint_file scenario_dev "docs"
  /\ NoDup scenario_dev.*1
  /\ ("1-1-setup", Str "done") ∈ scenario_dev
  /\ classify "1-1-setup" = Item "1"
  /\ exists snap,
       parse_sprint_status scenario sprint_file = Returns snap
       /\ forall s, s ∈ all_stories snap -> story_key s = "1-1-setup" ->
            (status_mismatch s = Some true <->
             exists document,
               document_status scenario "docs" "1-1-setup" = Some document
               /\ Str document <> Str "done")
            /\ (status_mismatch s = Some true ->
                file_status s = document_status scenario "docs" "1-1-setup"
                /\ yaml_status s = Some (Str "done"))
            /\ (status_mismatch s <> Some true ->
                status_mismatch s = None /\ file_status s = None /\ yaml_status s = None).
Proof.
  assert (H1 : resolves scenario sprint_file scenario_dev "docs")
    by (eexists; split_and!; vm_compute; reflexivity).
  assert (H2 : NoDup scenario_dev.*1) by by_computation.
  assert (H3 : ("1-1-setup", Str "done") ∈ scenario_dev) by (do 2 right; left).
  assert (H4 : classify "1-1-setup" = Item "1") by by vm_compute.
  split_and!; [done..|].
  exact (mismatch_iff_document_differs_from_raw_index _ _ _ _ _ _ _ H1 H2 H3 H4).
Defined.

(** C4, the claim as stated fails: the key [misc-task] is not a
    retrospective entry and has a document, yet the snapshot has no story
    at all: a key whose first token is not a number is passed over. *)
Lemma unclassified_key_is_omitted :
  ("misc-task", Str "done") ∈ stray_dev
  /\ contains "retrospective" "misc-task" = false
  /\ exists_ stray "docs/misc-task.md" = true
  /\ parse_sprint_status stray sprint_file =
     Returns {| error := None; epics := []; _story_dir := Some "docs" |}.
Proof. split; [left|by vm_compute]. Qed.

(** C4, amended: every key of the mapping that is classified as an item
    (no ["retrospective"] in it, not a group entry, at least two
    dash-separated tokens, the first one numeric) is the key of exactly
    one story among all the groups of the snapshot, in the group named
    after its first token, and groups do not repeat; conversely every
    story of the snapshot comes from such a key of the mapping, so that a
    document alone never makes an item. *)
Theorem every_item_key_in_exactly_one_group
  (w : world) (yaml_file : string) (dev : list (string * yaml)) (dir key : string)
  (v : yaml) (p0 : string) :
  resolves w yaml_file dev dir ->
  NoDup dev.*1 ->
  (key, v) ∈ dev ->
  classify key = Item p0 ->
  exists snap,
    parse_sprint_status w yaml_file = Returns snap
    /\ List.length (filter (fun s => story_key s = key) (all_stories snap)) = 1
    /\ (exists e s, e ∈ epics snap /\ epic_key e = ("epic-" ++ p0)%string
                    /\ s ∈ stories e /\ story_key s = key)
    /\ NoDup (epic_key <$> epics snap)
    /\ forall s, s ∈ all_stories snap ->
         exists v' p, (story_key s, v') ∈ dev /\ classify (story_key s) = Item p.
Proof.
  intros Hres Hnd Hin Hc. eexists. split; [by apply parse_resolves|]. split_and!.
  - unfold all_stories. simpl.
    by rewrite (item_occurs_once w dir dev key v p0).
  - destruct (item_in_its_group w dir dev key v p0 Hin Hc) as (e & He & Hk & Hs).
    exists e. eexists. split_and!; [done..|apply story_entry_key].
  - apply ordered_epics_NoDup.
  - intros s (e & He & Hs)%all_stories_elem. simpl in He.
    destruct (story_from_item _ _ _ _ _ He Hs) as (k & v' & Hin' & Hg & ->).
    rewrite story_entry_key. unfold item_group in Hg.
    destruct (classify k) as [| |p|] eqn:Hk; try done. eauto.
Qed.

Lemma every_item_key_in_exactly_one_group_witness :
  resolves scenario sprint_file scenario_dev "docs"
  /\ NoDup scenario_dev.*1
  /\ ("1-2-auth", Str "in-progress") ∈ scenario_dev
  /\ classify "1-2-auth" = Item "1"
  /\ exists snap,
       parse_sprint_status scenario sprint_file = Returns snap
       /\ List.length (filter (fun s => story_key s = "1-2-auth") (all_stories snap)) = 1
       /\ (exists e s, e ∈ epics snap /\ epic_key e = "epic-1"
                       /\ s ∈ stories e /\ story_key s = "1-2-auth")
       /\ NoDup (epic_key <$> epics snap)
       /\ forall s, s ∈ all_stories snap ->
            exists v' p, (story_key s, v') ∈ scenario_dev
                         /\ classify (story_key s) = Item p.
Proof.
  assert (H1 : resolves scenario sprint_file scenario_dev "docs")
    by (eexists; split_and!; vm_compute; reflexivity).
  assert (H2 : NoDup scenario_dev.*1) by by_computation.
  assert (H3 : ("1-2-auth", Str "in-progress") ∈ scenario_dev) by (right; left).
  assert (H4 : classify "1-2-auth" = Item "1") by by vm_compute.
  split_and!; [done..|].
  exact (every_item_key_in_exactly_one_group _ _ _ _ _ _ _ H1 H2 H3 H4).
Defined.

(** The sorting pass on a list with a tie and with keys without a number. *)
Example sort_by_example :
  story_key <$>
    sort_by sort_key_lt story_sort_key
      ((fun key => {| story_key := key; story_title := key; story_status := Str "done";
                      file_status := None; yaml_status := None;
                      status_mismatch := None |})
         <$> ["zeta"; "1-10-late"; "1-2-b"; "alpha"; "1-2-a"; "1-setup"])
  = ["1-setup"; "1-2-b"; "1-2-a"; "1-10-late"; "alpha"; "zeta"].
Proof. by vm_compute. Qed.



(** ** Groups *)

Lemma first_opened_app before rest g :
  (forall kv, kv ∈ before -> opened_by kv.1 kv.2 g = None) ->
  first_opened (before ++ rest) g = first_opened rest g.
Proof.
  induction before as [|kv before IH]; intros H; [done|].
  simpl. rewrite H by left. apply IH. intros kv' Hin. apply H. by right.
Qed.


Lemma opened_by_other k v g : group_of k <> Some g -> opened_by k v g = None.
Proof.
  unfold group_of, opened_by. destruct (classify k); try done.
  - intros H. rewrite decide_False; [done|congruence].
  - intros H. rewrite decide_False; [done|congruence].
Qed.

Lemma classify_item_isdigit k p0 : classify k = Item p0 -> isdigit p0 = true.
Proof.
  unfold classify.
  destruct (contains "retrospective" k); [done|].
  destruct (is_epic_key k); [done|].
  destruct (split_on "-" k) as [|p ps]; [done|].
  destruct ((2 <=? List.length (p :: ps))%nat) eqn:Hlen; simpl; [|done].
  destruct (isdigit p) eqn:Hd; [|done]. by intros [= <-].
Qed.



(** An entry for a group that comes after an item of the group is passed
    over: the group keeps the status it was created with. *)
Example late_group_entry_passed_over :
  epic_status <$> epics_of (parse_sprint_status
     (sprint [("3-1-first", Str "done"); ("epic-3", Str "done")] []) sprint_file)
  = [Str "in-progress"].
Proof. by vm_compute. Qed.

(** The two ways of C10 on concrete sources: a group entry [epic-2: done]
    written with a status that is not in normal form keeps it, and a group
    that only an item names is ["in-progress"]. *)
Example group_status_examples :
  (epic_key <$> epics_of (parse_sprint_status
     (sprint [("epic-2", Str "DONE (shipped)"); ("3-1-first", Str "done")] [])
     sprint_file),
   epic_title <$> epics_of (parse_sprint_status
     (sprint [("epic-2", Str "DONE (shipped)"); ("3-1-first", Str "done")] [])
     sprint_file),
   epic_status <$> epics_of (parse_sprint_status
     (sprint [("epic-2", Str "DONE (shipped)"); ("3-1-first", Str "done")] [])
     sprint_file))
  = (["epic-2"; "epic-3"], ["Epic 2"; "Epic 3"],
     [Str "DONE (shipped)"; Str "in-progress"]).
Proof. by vm_compute. Qed.

(** ** Failures of a resolution pass *)



(** C3, the code at the failing input: the source [development_status:]
    with nothing under it parses, as [{'development_status': None}], and
    the pass then raises [AttributeError] at [dev_status.items()]: the
    [try] of [parse_sprint_status] only covers the loading. *)
Theorem empty_section_raises :
  parse_sprint_status empty_section sprint_file = Raises "AttributeError".
Proof. by vm_compute. Qed.

(** The pass also raises on a source that is a sequence, and on a key that
    is not a string. *)
Example sequence_source_raises :
  parse_sprint_status
    {| fs := fun _ => None; safe_load := fun _ => Loaded (Seq [Str "epic-1"]) |}
    sprint_file
  = Raises "AttributeError".
Proof. by vm_compute. Qed.

Example integer_key_raises :
  parse_sprint_status
    {| fs := fun _ => None;
       safe_load := fun _ =>
         Loaded (Map [(SStr "development_status", Map [(SInt 1, Str "done")])]) |}
    sprint_file
  = Raises "TypeError".
Proof. by vm_compute. Qed.

(** ** Progress of an epic on the page *)


(** The second scenario of the specification: one story of two is done. *)
Example progress_of_scenario :
  View.progress <$> epics_of (parse_sprint_status (sprint scenario_dev []) sprint_file)
  = [Some ((1 # 2) * 100)%Q]
  /\ View.progress {| epic_key := "epic-9"; epic_title := "Epic 9";
                      epic_status := Str "backlog"; stories := [] |} = Some 0%Q.
Proof. by vm_compute. Qed.

(** ** The server *)

Section ServerFacts.
Import Server.
Context (w : world) (yaml_path : string).

Lemma notify_keeps failing s s' :
  notify w yaml_path failing s = Returns s' ->
  connected_clients s' = connected_clients s
  /\ shutdown_task s' = shutdown_task s
  /\ sleeping s' = sleeping s
  /\ clock s' = clock s
  /\ next_task s' = next_task s
  /\ exit_code s' = exit_code s.
Proof.
  unfold notify. destruct (parse_sprint_status w yaml_path) as [data|]; simpl; [|done].
  case_bool_decide; by intros [= <-].
Qed.

Lemma watch_keeps seen s :
  connected_clients (watch w yaml_path seen s) = connected_clients s
  /\ shutdown_task (watch w yaml_path seen s) = shutdown_task s
  /\ sleeping (watch w yaml_path seen s) = sleeping s
  /\ clock (watch w yaml_path seen s) = clock s
  /\ next_task (watch w yaml_path seen s) = next_task s
  /\ exit_code (watch w yaml_path seen s) = exit_code s.
Proof.
  unfold watch. destruct (current_modified seen) as [modified|]; [|done].
  destruct (_ || _); [|done].
  destruct (notify _ _ _ _) as [s'|] eqn:Hn; [|done].
  by apply notify_keeps in Hn.
Qed.

Lemma step_timers_known s e s' :
  timers_known s -> step w yaml_path s e = Some s' -> timers_known s'.
Proof.
  intros Hinv. unfold step. destruct (exit_code s); [done|].
  destruct e as [ws|ws|d|task|seen].
  - case_decide; [done|]. intros [= <-] task due. simpl.
    destruct (shutdown_task s) as [t|] eqn:Ht.
    + intros Hl. destruct (decide (t = task)) as [->|Hne].
      * by rewrite lookup_delete_eq in Hl.
      * rewrite lookup_delete_ne in Hl by done.
        apply Hinv in Hl as [Hl _]. congruence.
    + intros Hl. apply Hinv in Hl as [Hl _]. congruence.
  - case_decide as Hin; [|done]. intros [= <-] task due. simpl.
    assert (Hnone : sleeping s = ∅).
    { apply map_empty. intros t. destruct (sleeping s !! t) as [d|] eqn:Hl; [|done].
      apply Hinv in Hl as [_ Hl]. set_solver. }
    case_bool_decide as Hidle.
    + rewrite Hnone. intros [[<- <-]|[_ Hl]]%lookup_insert_Some; [|done].
      split; [done|]. by apply size_empty_iff, leibniz_equiv in Hidle.
    + by rewrite Hnone.
  - intros [= <-]. exact Hinv.
  - destruct (sleeping s !! task) as [due|] eqn:Hl; [|done].
    destruct (due <=? clock s)%nat; [|done]. intros [= <-] t d. simpl.
    destruct (decide (task = t)) as [->|Hne].
    + by rewrite lookup_delete_eq.
    + rewrite lookup_delete_ne by done. intros Hl'.
      apply Hinv in Hl as [Hl _], Hl' as [Hl' _]. congruence.
  - intros [= <-] task due.
    destruct (watch_keeps seen s) as (-> & -> & -> & _). apply Hinv.
Qed.

Lemma reachable_timers_known s : reachable w yaml_path s -> timers_known s.
Proof.
  induction 1 as [dir m sm|s e s' _ IH Hstep].
  - intros task due. simpl. by rewrite lookup_empty.
  - by eapply step_timers_known.
Qed.




End ServerFacts.

(** *** Broadcast *)




(** *** Idle shutdown *)





(** The life cycle on a concrete run: a visit, 30 seconds, the exit; and a
    second visit after 29 seconds, which cancels the countdown. *)
Example idle_shutdown_runs :
  (Server.exit_code <$>
     Server.run scenario sprint_file (Server.initial "docs" 0 0)
       [Server.Connect 7; Server.Disconnect 7; Server.Sleep 30; Server.Wake 0])
  = Some (Some 0%Z)
  /\ Server.run scenario sprint_file (Server.initial "docs" 0 0)
       [Server.Connect 7; Server.Disconnect 7; Server.Sleep 29; Server.Wake 0] = None
  /\ Server.run scenario sprint_file (Server.initial "docs" 0 0)
       [Server.Connect 7; Server.Disconnect 7; Server.Sleep 29; Server.Connect 8;
        Server.Sleep 30; Server.Wake 0] = None.
Proof. by vm_compute. Qed.

(** * Further properties of the code *)

(** ** Characters and strings *)

Lemma lower_char_not_upper c : isupper (lower_char c) = false.
Proof. by destruct c as [[] [] [] [] [] [] [] []]. Qed.

Lemma lower_char_idem c : lower_char (lower_char c) = lower_char c.
Proof. by destruct c as [[] [] [] [] [] [] [] []]. Qed.

Lemma lower_char_space c : isspace (lower_char c) = isspace c.
Proof. by destruct c as [[] [] [] [] [] [] [] []]. Qed.

Lemma lower_idem s : lower (lower s) = lower s.
Proof. induction s as [|c s IH]; simpl; [done|]. by rewrite lower_char_idem, IH. Qed.

Lemma lower_lstrip s : lower (lstrip s) = lstrip (lower s).
Proof.
  induction s as [|c s IH]; simpl; [done|].
  rewrite lower_char_space. by destruct (isspace c).
Qed.

Lemma lower_rstrip s : lower (rstrip s) = rstrip (lower s).
Proof.
  induction s as [|c s IH]; simpl; [done|].
  rewrite <- IH, lower_char_space.
  destruct (rstrip s) as [|d r]; simpl; [by destruct (isspace c)|done].
Qed.

Lemma lower_strip s : lower (strip s) = strip (lower s).
Proof. unfold strip. by rewrite lower_rstrip, lower_lstrip. Qed.

Lemma rstrip_idem s : rstrip (rstrip s) = rstrip s.
Proof.
  induction s as [|c s IH]; simpl; [done|].
  destruct (rstrip s) as [|d r] eqn:E.
  - destruct (isspace c) eqn:Hc; simpl; [done|by rewrite Hc].
  - simpl in *. by rewrite IH.
Qed.

Lemma lstrip_head s :
  lstrip s = EmptyString \/ exists c t, lstrip s = String c t /\ isspace c = false.
Proof.
  induction s as [|c s IH]; simpl; [by left|].
  destruct (isspace c) eqn:Hc; [done|]. right. eauto.
Qed.

Lemma lstrip_rstrip_lstrip s : lstrip (rstrip (lstrip s)) = rstrip (lstrip s).
Proof.
  destruct (lstrip_head s) as [->|(c & t & -> & Hc)]; [done|].
  simpl. destruct (rstrip t); rewrite ?Hc; simpl; by rewrite Hc.
Qed.

Lemma strip_idem s : strip (strip s) = strip s.
Proof. unfold strip. by rewrite lstrip_rstrip_lstrip, rstrip_idem. Qed.

Section AllChars.
Context (P : ascii -> bool).

Lemma all_chars_lstrip s : all_chars P s = true -> all_chars P (lstrip s) = true.
Proof.
  induction s as [|c s IH]; simpl; [done|].
  intros [Hc Hs]%andb_true_iff. destruct (isspace c); [auto|]. simpl. by rewrite Hc.
Qed.

Lemma all_chars_rstrip s : all_chars P s = true -> all_chars P (rstrip s) = true.
Proof.
  induction s as [|c s IH]; simpl; [done|].
  intros [Hc Hs]%andb_true_iff. specialize (IH Hs).
  destruct (rstrip s) as [|d r]; simpl in *.
  - destruct (isspace c); simpl; [done|by rewrite Hc].
  - by rewrite Hc.
Qed.

Lemma all_chars_strip s : all_chars P s = true -> all_chars P (strip s) = true.
Proof. intros H. by apply all_chars_rstrip, all_chars_lstrip. Qed.

Lemma all_chars_sub_paren_note s :
  all_chars P s = true -> all_chars P (Re.sub_paren_note s) = true.
Proof.
  induction s as [|c s IH]; simpl.
  - by destruct (Re.paren_note_matches EmptyString).
  - intros [Hc Hs]%andb_true_iff.
    destruct (Re.paren_note_matches (String c s)); [done|]. simpl. by rewrite Hc, IH.
Qed.

(** The words of [s.split()] are made of the characters of [s] that are
    not spaces. *)
Lemma split_words s :
  all_chars P s = true ->
  Forall (fun word => all_chars (fun c => P c && negb (isspace c)) word = true) (split s).
Proof.
  induction s as [|c s IH]; simpl; [constructor|].
  intros [Hc Hs]%andb_true_iff. specialize (IH Hs).
  destruct (isspace c) eqn:Hsp; [done|].
  destruct s as [|d s']; [constructor; [by simpl; rewrite Hc, Hsp|constructor]|].
  destruct (isspace d) eqn:Hd.
  - constructor; [by simpl; rewrite Hc, Hsp|done].
  - destruct (split (String d s')) as [|word words];
      [constructor; [by simpl; rewrite Hc, Hsp|constructor]|].
    inversion IH as [|? ? Hword Hwords]; subst.
    constructor; [|done]. simpl. by rewrite Hc, Hsp, Hword.
Qed.

End AllChars.

Lemma all_chars_lower s : all_chars (fun c => negb (isupper c)) (lower s) = true.
Proof.
  induction s as [|c s IH]; simpl; [done|]. by rewrite lower_char_not_upper, IH.
Qed.

Lemma replace_underscore_plain word :
  all_chars (fun c => negb (isupper c) && negb (isspace c)) word = true ->
  all_chars plain_char (replace "_" "-" word) = true.
Proof.
  induction word as [|c word IH]; simpl; [done|].
  intros [[Hu Hs]%andb_true_iff Hw]%andb_true_iff. rewrite (IH Hw), andb_true_r.
  destruct (Ascii.eqb c "_") eqn:E; [done|].
  unfold plain_char. by rewrite Hu, Hs, E.
Qed.

(** ** normalize_status, further *)

(** X1: whatever the raw status, its normal form is not empty and has no
    space, no upper-case letter and no underscore in it. *)
Theorem normalize_status_plain (s : string) :
  normalize_status s <> EmptyString
  /\ all_chars plain_char (normalize_status s) = true.
Proof.
  split; [apply normalize_status_nonempty|].
  unfold normalize_status.
  set (raw := strip (Re.sub_paren_note (strip (lower s)))).
  assert (Hraw : all_chars (fun c => negb (isupper c)) raw = true).
  { apply all_chars_strip, all_chars_sub_paren_note, all_chars_strip, all_chars_lower. }
  destruct (in_tuple raw closed_set) eqn:E.
  { apply in_tuple_In in E. by repeat (destruct E as [<-|E]; [done|]). }
  repeat match goal with
         | |- all_chars _ (if ?b then _ else _) = true => destruct b; [done|]
         end.
  apply replace_underscore_plain.
  destruct (negb (raw =? EmptyString)); [|done].
  pose proof (split_words _ _ Hraw) as Hwords.
  destruct (split raw) as [|word words]; [done|]. by inversion Hwords.
Qed.

Lemma normalize_status_same x y :
  strip (lower x) = strip (lower y) -> normalize_status x = normalize_status y.
Proof. intros H. unfold normalize_status. by rewrite H. Qed.

(** X2: the normal form does not depend on the case of the letters or on
    spaces around the raw status, so the [strip().lower()] that
    [get_status_from_story_file] applies first changes nothing. *)
Theorem normalize_status_ignores_case_and_margins (s : string) :
  normalize_status (lower s) = normalize_status s
  /\ normalize_status (strip s) = normalize_status s
  /\ normalize_status (lower (strip s)) = normalize_status s.
Proof.
  split_and!; apply normalize_status_same.
  - by rewrite lower_idem.
  - by rewrite lower_strip, strip_idem.
  - by rewrite lower_idem, lower_strip, strip_idem.
Qed.

(** ** get_status_from_story_file, further *)

Lemma append_cons c (a b : string) : (String c a ++ b = String c (a ++ b))%string.
Proof. done. Qed.

Lemma append_assoc (a b c : string) : ((a ++ b) ++ c = a ++ (b ++ c))%string.
Proof. induction a as [|x a IH]; [done|]. by rewrite !append_cons, IH. Qed.

Lemma readline_line line rest :
  no_newline line = true ->
  readline (line ++ String Re.newline rest) = ((line ++ line_end)%string, rest).
Proof.
  unfold no_newline. induction line as [|c line IH].
  - intros _. reflexivity.
  - cbn [all_chars]. intros [Hc Hl]%andb_true_iff. apply negb_true_iff in Hc.
    rewrite !append_cons. cbn [readline]. by rewrite Hc, (IH Hl).
Qed.

Lemma text_of_cons line lines rest :
  (text_of (line :: lines) ++ rest = line ++ String Re.newline (text_of lines ++ rest))%string.
Proof. unfold text_of. cbn [foldr]. by rewrite append_assoc. Qed.

Lemma line_not_empty line : (line ++ line_end =? EmptyString)%string = false.
Proof. by destruct line. Qed.

(** The loop passes over lines that are not status lines, one turn each. *)
Lemma scan_status_skip n before rest :
  Forall other_line before ->
  scan_status (List.length before + n) (text_of before ++ rest) = scan_status n rest.
Proof.
  induction 1 as [|line before [Hnl Hno] _ IH]; [done|].
  rewrite text_of_cons. simpl. rewrite (readline_line _ _ Hnl), line_not_empty, Hno.
  apply IH.
Qed.

(** X3: only the first ten lines of a story document are read: with ten
    lines that are not status lines in front, whatever follows, also a
    status line, gives no document status. *)
Theorem status_after_tenth_line_is_not_read
  (w : world) (story_dir story_key : string) (before : list string) (rest : string) :
  fs w (Path.join story_dir (story_key ++ ".md")%string)
    = Some (Text (text_of before ++ rest)) ->
  List.length before = 10 ->
  Forall other_line before ->
  get_status_from_story_file w story_dir story_key = None.
Proof.
  intros Hfs Hlen Hbefore.
  unfold get_status_from_story_file, exists_. rewrite Hfs.
  cbn -[scan_status text_of].
  pose proof (scan_status_skip 0 before rest Hbefore) as H.
  by rewrite Hlen in H.
Qed.

Lemma status_after_tenth_line_is_not_read_witness :
  fs late_status (Path.join "docs" ("1-1-setup" ++ ".md")%string)
    = Some (Text (text_of (replicate 10 "filler") ++ text_of ["Status: done"]))
  /\ List.length (replicate 10 "filler") = 10
  /\ Forall other_line (replicate 10 "filler")
  /\ get_status_from_story_file late_status "docs" "1-1-setup" = None.
Proof.
  assert (H1 : fs late_status (Path.join "docs" ("1-1-setup" ++ ".md")%string)
               = Some (Text (text_of (replicate 10 "filler") ++ text_of ["Status: done"])))
    by reflexivity.
  assert (H2 : List.length (replicate 10 "filler") = 10) by reflexivity.
  assert (H3 : Forall other_line (replicate 10 "filler")).
  { repeat constructor. }
  split_and!; [done..|].
  exact (status_after_tenth_line_is_not_read _ _ _ _ _ H1 H2 H3).
Defined.

(** X4: the first status line among the first ten lines decides: after
    fewer than ten lines that are not status lines, a line that matches
    gives the normal form of its value, whatever follows it. *)
Theorem first_status_line_decides
  (w : world) (story_dir story_key : string) (before : list string)
  (line group1 rest : string) :
  fs w (Path.join story_dir (story_key ++ ".md")%string)
    = Some (Text (text_of before ++ line ++ String Re.newline rest)) ->
  List.length before < 10 ->
  Forall other_line before ->
  no_newline line = true ->
  Re.match_status (line ++ line_end) = Some group1 ->
  get_status_from_story_file w story_dir story_key = Some (normalize_status group1).
Proof.
  intros Hfs Hlen Hbefore Hnl Hmatch.
  unfold get_status_from_story_file, exists_. rewrite Hfs.
  cbn -[scan_status text_of].
  replace 10 with (List.length before + S (9 - List.length before)) by lia.
  rewrite (scan_status_skip _ before _ Hbefore).
  simpl. rewrite (readline_line _ _ Hnl), line_not_empty, Hmatch.
  f_equal. apply normalize_status_same.
  by rewrite lower_idem, lower_strip, strip_idem.
Qed.

Lemma first_status_line_decides_witness :
  fs scenario (Path.join "docs" ("1-1-setup" ++ ".md")%string)
    = Some (Text (text_of ["# Story 1.1: Setup"; ""]
                  ++ "Status: Ready for Review" ++ String Re.newline EmptyString))
  /\ List.length ["# Story 1.1: Setup"; ""] < 10
  /\ Forall other_line ["# Story 1.1: Setup"; ""]
  /\ no_newline "Status: Ready for Review" = true
  /\ Re.match_status ("Status: Ready for Review" ++ line_end) = Some "Ready for Review"
  /\ get_status_from_story_file scenario "docs" "1-1-setup"
     = Some (normalize_status "Ready for Review").
Proof.
  assert (H1 : fs scenario (Path.join "docs" ("1-1-setup" ++ ".md")%string)
               = Some (Text (text_of ["# Story 1.1: Setup"; ""]
                             ++ "Status: Ready for Review"
                             ++ String Re.newline EmptyString))) by reflexivity.
  assert (H2 : List.length ["# Story 1.1: Setup"; ""] < 10) by (simpl; lia).
  assert (H3 : Forall other_line ["# Story 1.1: Setup"; ""]) by (repeat constructor).
  assert (H4 : no_newline "Status: Ready for Review" = true) by reflexivity.
  assert (H5 : Re.match_status ("Status: Ready for Review" ++ line_end)
               = Some "Ready for Review") by reflexivity.
  split_and!; [done..|].
  exact (first_status_line_decides _ _ _ _ _ _ _ H1 H2 H3 H4 H5).
Defined.

(** ** The story directory *)

Lemma walk_up_found w n yaml_dir location check_dir d :
  walk_up w n yaml_dir location check_dir = Some d ->
  d = yaml_dir
  \/ exists k, k < n
               /\ d = Path.join (Nat.iter k Path.dirname check_dir) location
               /\ isdir w d = true.
Proof.
  revert check_dir. induction n as [|n IH]; intros check_dir; simpl; [done|].
  destruct (isdir w (Path.join check_dir location)) eqn:Hdir.
  { intros [= <-]. right. exists 0. split_and!; [lia|done|done]. }
  destruct (Path.basename yaml_dir =? Path.basename location).
  { intros [= <-]. by left. }
  intros [->|(k & Hk & -> & Hd)]%IH; [by left|].
  right. exists (S k). rewrite Nat.iter_succ_r. split_and!; [lia|done|done].
Qed.

(** X5: the story directory that the resolver settles on is the directory
    of the sprint file, or a directory that exists: the declared location
    under the directory of the sprint file or under one of its next four
    ancestors. *)
Theorem story_dir_is_yaml_dir_or_existing_directory
  (w : world) (yaml_dir : string) (story_location : yaml) (d : string) :
  find_story_dir w yaml_dir story_location = Returns d ->
  d = yaml_dir
  \/ exists location k,
       story_location = Str location /\ k < 5
       /\ d = Path.join (Nat.iter k Path.dirname yaml_dir) location
       /\ isdir w d = true.
Proof.
  unfold find_story_dir. destruct (truthy story_location); [|by intros [= <-]; left].
  destruct story_location as [[| | |location]| |]; try done.
  destruct (walk_up w 5 yaml_dir location yaml_dir) as [found|] eqn:Hwalk;
    [|by intros [= <-]; left].
  destruct (found =? EmptyString); [by intros [= <-]; left|].
  intros [= <-].
  apply walk_up_found in Hwalk as [->|(k & Hk & -> & Hd)]; [by left|].
  right. by exists location, k.
Qed.

Lemma story_dir_is_yaml_dir_or_existing_directory_witness :
  find_story_dir nested "proj/docs" (Str "stories") = Returns "proj/stories"
  /\ ("proj/stories" = "proj/docs"
      \/ exists location k,
           Str "stories" = Str location /\ k < 5
           /\ "proj/stories" = Path.join (Nat.iter k Path.dirname "proj/docs") location
           /\ isdir nested "proj/stories" = true).
Proof.
  assert (H : find_story_dir nested "proj/docs" (Str "stories") = Returns "proj/stories")
    by reflexivity.
  split; [exact H|].
  exact (story_dir_is_yaml_dir_or_existing_directory _ _ _ _ H).
Defined.

(** ** parse_sprint_status, further *)




Lemma visit_epic_order w dir st k v :
  well_ordered st ->
  epic_order (visit w dir st k v) =
  epic_order st ++
  match group_of k with
  | Some g => if decide (g ∈ epic_order st) then [] else [g]
  | None => []
  end.
Proof.
  intros [_ Hdom]. rewrite visit_classify. unfold group_of.
  assert (Hensure : forall g t u,
            epic_order (ensure_epic g t u st)
            = epic_order st ++ (if decide (g ∈ epic_order st) then [] else [g])).
  { intros g t u. unfold ensure_epic.
    destruct (by_key st !! g) eqn:Hg.
    - rewrite decide_True, app_nil_r; [done|]. apply Hdom. by rewrite Hg.
    - rewrite decide_False; [done|]. intros Hin%Hdom. rewrite Hg in Hin. by destruct Hin. }
  destruct (classify k); simpl; rewrite ?app_nil_r; try done; apply Hensure.
Qed.

Lemma group_all_epic_order w dir dev st :
  well_ordered st ->
  epic_order (group_all w dir dev st) = epic_order st ++ first_seen (epic_order st) dev.
Proof.
  revert st. induction dev as [|[k v] dev IH]; intros st Hst.
  - simpl. by rewrite app_nil_r.
  - unfold group_all in *. simpl foldl.
    assert (Hst' : well_ordered (visit w dir st k v)).
    { rewrite visit_classify.
      destruct (classify k); auto using ensure_epic_well_ordered, append_story_well_ordered. }
    rewrite (IH _ Hst'), (visit_epic_order _ _ _ _ _ Hst). simpl first_seen.
    destruct (group_of k) as [g|]; [|by rewrite app_nil_r].
    case_decide; [by rewrite app_nil_r|]. by rewrite <- app_assoc.
Qed.

Lemma ordered_epics_keys w dir dev :
  epic_key <$> ordered_epics (group_all w dir dev no_groups)
  = epic_order (group_all w dir dev no_groups).
Proof.
  pose proof (group_all_well_ordered w dir dev _ no_groups_well_ordered) as [_ Hdom].
  unfold ordered_epics. set (st := group_all w dir dev no_groups) in *.
  assert (Hall : forall g, g ∈ epic_order st ->
                   exists e, (sort_stories <$> by_key st) !! g = Some e /\ epic_key e = g).
  { intros g [e0 He0]%Hdom. exists (sort_stories e0). rewrite lookup_fmap, He0.
    split; [done|]. simpl. unfold st in He0. rewrite group_all_lookup in He0.
    simpl in He0. rewrite lookup_empty in He0.
    destruct (first_opened dev g) as [e1|] eqn:Hf; [|done].
    injection He0 as <-. simpl. by apply first_opened_key in Hf. }
  assert (Hlist : forall l : list string,
            (forall g, g ∈ l -> g ∈ epic_order st) ->
            epic_key <$> omap (fun k => (sort_stories <$> by_key st) !! k) l = l).
  { induction l as [|g l IH]; intros Hl; [done|].
    destruct (Hall g) as (e & He & Hk); [apply Hl; left|].
    cbn [omap list_omap]. rewrite He, fmap_cons, Hk, IH; [done|].
    intros g' Hg'. apply Hl. by right. }
  by apply Hlist.
Qed.

(** X7: the groups of a snapshot are in the order in which the entries of
    the mapping first refer to them, as an entry of the group or as one of
    its items. *)
Theorem groups_in_first_seen_order
  (w : world) (yaml_file : string) (dev : list (string * yaml)) (dir : string) :
  resolves w yaml_file dev dir ->
  exists snap,
    parse_sprint_status w yaml_file = Returns snap
    /\ epic_key <$> epics snap = first_seen [] dev.
Proof.
  intros Hres. eexists. split; [by apply parse_resolves|]. simpl.
  rewrite ordered_epics_keys.
  by rewrite (group_all_epic_order _ _ _ _ no_groups_well_ordered).
Qed.

Lemma groups_in_first_seen_order_witness :
  resolves (sprint [("2-1-late", Str "done"); ("epic-1", Str "done");
                    ("1-1-early", Str "done"); ("epic-2", Str "done")] [])
    sprint_file
    [("2-1-late", Str "done"); ("epic-1", Str "done");
     ("1-1-early", Str "done"); ("epic-2", Str "done")] "docs"
  /\ exists snap,
       parse_sprint_status
         (sprint [("2-1-late", Str "done"); ("epic-1", Str "done");
                  ("1-1-early", Str "done"); ("epic-2", Str "done")] [])
         sprint_file = Returns snap
       /\ epic_key <$> epics snap
          = first_seen [] [("2-1-late", Str "done"); ("epic-1", Str "done");
                           ("1-1-early", Str "done"); ("epic-2", Str "done")].
Proof.
  assert (H : resolves (sprint [("2-1-late", Str "done"); ("epic-1", Str "done");
                                ("1-1-early", Str "done"); ("epic-2", Str "done")] [])
                sprint_file
                [("2-1-late", Str "done"); ("epic-1", Str "done");
                 ("1-1-early", Str "done"); ("epic-2", Str "done")] "docs")
    by (eexists; split_and!; vm_compute; reflexivity).
  split; [exact H|].
  exact (groups_in_first_seen_order _ _ _ _ H).
Defined.

Example first_seen_example :
  first_seen [] [("2-1-late", Str "done"); ("epic-1", Str "done");
                 ("1-1-early", Str "done"); ("epic-2", Str "done")]
  = ["epic-2"; "epic-1"].
Proof. by vm_compute. Qed.

Lemma split_on_head k p0 p1 ps :
  split_on "-" k = p0 :: p1 :: ps -> exists rest, k = (p0 ++ "-" ++ rest)%string.
Proof.
  revert p0. induction k as [|c k IH]; intros p0; simpl; [done|].
  destruct (Ascii.eqb c "-") eqn:Hc.
  - apply Ascii.eqb_eq in Hc as ->. intros [= <- _]. by exists k.
  - destruct (split_on "-" k) as [|word words] eqn:Hs; [done|].
    intros [= <- ->]. destruct (IH word eq_refl) as [rest ->]. by exists rest.
Qed.

Lemma prefix_append (a b : string) : String.prefix a (a ++ b) = true.
Proof.
  induction a as [|c a IH]; [by destruct b|].
  rewrite append_cons. simpl. by destruct (ascii_dec c c).
Qed.

Lemma classify_item_prefix k p0 :
  classify k = Item p0 -> isdigit p0 = true /\ startswith k (p0 ++ "-") = true.
Proof.
  intros Hc. split; [by eapply classify_item_isdigit|].
  unfold classify in Hc.
  destruct (contains "retrospective" k); [done|].
  destruct (is_epic_key k); [done|].
  destruct (split_on "-" k) as [|p [|p1 ps]] eqn:Hs; try done.
  destruct (_ && _); [|done]. injection Hc as <-.
  destruct (split_on_head _ _ _ _ Hs) as [rest ->].
  unfold startswith. rewrite <- append_assoc. apply prefix_append.
Qed.

(** X8: in every produced snapshot, each story is in the group of its
    number: the key of the group is ["epic-"] followed by a numeric token
    [N], and the key of each of its stories begins with [N] and a dash. *)
Theorem story_key_begins_with_group_number
  (w : world) (yaml_file : string) (snap : snapshot) (e : epic) (s : story) :
  parse_sprint_status w yaml_file = Returns snap ->
  e ∈ epics snap ->
  s ∈ stories e ->
  exists N,
    isdigit N = true
    /\ epic_key e = ("epic-" ++ N)%string
    /\ startswith (story_key s) (N ++ "-") = true.
Proof.
  intros Hparse He Hs.
  destruct (parse_returns_groups _ _ _ _ Hparse He) as (dev & dir & Hres).
  rewrite (parse_resolves _ _ _ _ Hres) in Hparse. injection Hparse as <-.
  simpl in He.
  destruct (story_from_item _ _ _ _ _ He Hs) as (k & v & Hin & Hg & ->).
  rewrite story_entry_key. unfold item_group in Hg.
  destruct (classify k) as [| |p0|] eqn:Hc; try done. injection Hg as Hg.
  exists p0. destruct (classify_item_prefix _ _ Hc). done.
Qed.

Lemma story_key_begins_with_group_number_witness :
  parse_sprint_status scenario sprint_file = Returns scenario_snapshot
  /\ scenario_epic ∈ epics scenario_snapshot
  /\ scenario_story ∈ stories scenario_epic
  /\ exists N,
       isdigit N = true
       /\ epic_key scenario_epic = ("epic-" ++ N)%string
       /\ startswith (story_key scenario_story) (N ++ "-") = true.
Proof.
  assert (H1 : parse_sprint_status scenario sprint_file = Returns scenario_snapshot)
    by (vm_compute; reflexivity).
  assert (H2 : scenario_epic ∈ epics scenario_snapshot) by left.
  assert (H3 : scenario_story ∈ stories scenario_epic) by left.
  split; [exact H1|]. split; [exact H2|]. split; [exact H3|].
  exact (story_key_begins_with_group_number _ _ _ _ _ H1 H2 H3).
Defined.

(** ** The sorting pass, further *)

Lemma str_lt_asym a b : str_lt a b = true -> str_lt b a = false.
Proof.
  intros Hab. destruct (str_lt b a) eqn:Hba; [|done].
  pose proof (str_lt_trans _ _ _ Hab Hba) as H. by rewrite str_lt_irrefl in H.
Qed.

Lemma key_order_not_lt a b : key_order a b -> sort_key_lt b a = false.
Proof.
  destruct a as [a1 a2|ka], b as [b1 b2|kb]; simpl; try done.
  - rewrite orb_false_iff, andb_false_iff, !Z.ltb_ge, Z.eqb_neq. lia.
  - intros [->|H]; [apply str_lt_irrefl|by apply str_lt_asym].
Qed.

Lemma sort_by_sorted (l : list story) :
  StronglySorted (fun a b => key_order (story_sort_key a) (story_sort_key b)) l ->
  sort_by sort_key_lt story_sort_key l = l.
Proof.
  induction 1 as [|x l Hs IH Hall]; [done|].
  unfold sort_by in *. simpl. rewrite IH.
  destruct l as [|y l']; [done|]. simpl.
  inversion Hall as [|? ? Hxy _]; subst. by rewrite (key_order_not_lt _ _ Hxy).
Qed.

(** X9: sorting is idempotent: the sorting pass leaves a list of stories
    that it has sorted as it is. *)
Theorem sorting_pass_idempotent (l : list story) :
  sort_by sort_key_lt story_sort_key (sort_by sort_key_lt story_sort_key l)
  = sort_by sort_key_lt story_sort_key l.
Proof.
  apply sort_by_sorted, sort_by_StronglySorted;
    eauto using sort_key_lt_order, sort_key_nlt_order, key_order_trans.
Qed.

Lemma findall_digits_run N c t :
  all_chars isdecimal N = true -> N <> EmptyString -> isdecimal c = false ->
  findall_digits (N ++ String c t) = N :: findall_digits t.
Proof.
  induction N as [|a N IH]; [done|]. intros [Ha HN]%andb_true_iff _ Hc.
  rewrite append_cons. cbn [findall_digits]. rewrite Ha.
  destruct N as [|b N'].
  - change (EmptyString ++ String c t)%string with (String c t).
    cbv iota beta. rewrite Hc. cbn [findall_digits]. by rewrite Hc.
  - rewrite append_cons. cbv iota beta.
    pose proof HN as HN2. cbn [all_chars] in HN2.
    apply andb_true_iff in HN2 as [Hb _].
    rewrite Hb. rewrite <- append_cons.
    by rewrite IH.
Qed.

(** X10: for a story key of the documented form [N-M-name], with [N] and
    [M] runs of decimal digits, the sort key is the pair of the numbers
    that [N] and [M] denote, so that stories sort by number, not by the
    spelling of their keys. *)
Theorem story_sort_key_of_numbered_key (s : story) (N M name : string) :
  story_key s = (N ++ "-" ++ M ++ "-" ++ name)%string ->
  all_chars isdecimal N = true -> N <> EmptyString ->
  all_chars isdecimal M = true -> M <> EmptyString ->
  story_sort_key s = NumericPair (int N) (int M).
Proof.
  intros Hkey HN HN0 HM HM0. unfold story_sort_key. rewrite Hkey.
  change ("-" ++ M ++ "-" ++ name)%string with (String "-"%char (M ++ String "-"%char name)).
  rewrite (findall_digits_run N) by done.
  rewrite (findall_digits_run M) by done. done.
Qed.

Lemma story_sort_key_of_numbered_key_witness :
  story_key (story_with_key "1-10-late") = ("1" ++ "-" ++ "10" ++ "-" ++ "late")%string
  /\ all_chars isdecimal "1" = true /\ "1" <> EmptyString
  /\ all_chars isdecimal "10" = true /\ "10" <> EmptyString
  /\ story_sort_key (story_with_key "1-10-late") = NumericPair (int "1") (int "10").
Proof.
  assert (H1 : story_key (story_with_key "1-10-late")
               = ("1" ++ "-" ++ "10" ++ "-" ++ "late")%string) by reflexivity.
  assert (H2 : all_chars isdecimal "1" = true) by reflexivity.
  assert (H3 : "1" <> EmptyString) by discriminate.
  assert (H4 : all_chars isdecimal "10" = true) by reflexivity.
  assert (H5 : "10" <> EmptyString) by discriminate.
  split_and!; [done..|].
  exact (story_sort_key_of_numbered_key _ _ _ _ H1 H2 H3 H4 H5).
Defined.

(** ** The page, further *)

Lemma doneCount_le_totalCount e : View.doneCount e <= View.totalCount e.
Proof. unfold View.doneCount, View.totalCount. apply List.filter_length_le. Qed.

(** X11: the progress of a group is always between 0 and 100, and it is
    100 exactly when the page marks the group as complete: all its
    stories, at least one, are done. *)
Theorem progress_bounds_and_completion (e : epic) :
  exists q,
    View.progress e = Some q
    /\ (0 <= q)%Q /\ (q <= 100)%Q
    /\ (View.isEpicDone e = true <-> (q == 100)%Q).
Proof.
  pose proof (doneCount_le_totalCount e) as Hle.
  unfold View.progress, View.divide, View.isEpicDone.
  destruct (View.totalCount e) as [|n] eqn:Hn; simpl.
  - exists 0%Q. split_and!; [done|done|done|].
    rewrite andb_false_r. by split.
  - eexists. split; [done|].
    assert (Hp : Z.pos (Pos.of_nat (S n)) = Z.of_nat (S n))
      by (rewrite <- Pos.of_nat_succ; lia).
    set (p := Pos.of_nat (S n)) in *.
    unfold Qle, Qeq, Qmult. simpl Qnum. simpl Qden.
    rewrite !Pos2Z.inj_mul, Hp. split_and!; [lia|lia|].
    rewrite andb_true_r, Nat.eqb_eq. lia.
Qed.

(** X12: a status that comes from a story document is already in the form
    of a class name: [statusClass] of the page leaves it as it is. *)
Theorem statusClass_of_normalized_status (s : string) :
  statusClass (normalize_status s) = normalize_status s.
Proof.
  destruct (normalize_status_plain s) as [_ H]. unfold statusClass.
  induction (normalize_status s) as [|c n IH]; simpl in *; [done|].
  apply andb_true_iff in H as [Hc Hn]. rewrite (IH Hn).
  unfold plain_char in Hc. apply andb_true_iff in Hc as [_ Hc].
  apply negb_true_iff in Hc. by rewrite Hc.
Qed.

(** ** Modification times of the story files *)

Lemma newest_story_file d dir_path filenames start :
  let newest := foldl (newer_story_file d dir_path) start filenames in
  (start <= newest)%Z
  /\ (forall filename mtime,
        filename ∈ filenames -> is_story_file filename = true ->
        getmtime d (Path.join dir_path filename) = Returns mtime ->
        (mtime <= newest)%Z)
  /\ (newest = start
      \/ exists filename,
           filename ∈ filenames /\ is_story_file filename = true
           /\ getmtime d (Path.join dir_path filename) = Returns newest).
Proof.
  revert start. induction filenames as [|name names IH]; intros start; simpl.
  - split_and!; [lia| |by left]. by intros ? ? ?%elem_of_nil.
  - destruct (IH (newer_story_file d dir_path start name)) as (Hge & Hall & Hmax).
    assert (Hstep : (start <= newer_story_file d dir_path start name)%Z
                    /\ (forall mtime, is_story_file name = true ->
                          getmtime d (Path.join dir_path name) = Returns mtime ->
                          (mtime <= newer_story_file d dir_path start name)%Z)
                    /\ (newer_story_file d dir_path start name = start
                        \/ is_story_file name = true
                           /\ getmtime d (Path.join dir_path name)
                              = Returns (newer_story_file d dir_path start name))).
    { unfold newer_story_file, is_story_file.
      destruct (endswith name ".md" && negb (startswith name "epic-"));
        [|split_and!; [lia|done|by left]].
      destruct (getmtime d (Path.join dir_path name)) as [mtime|];
        [|split_and!; [lia|done|by left]].
      destruct (Z.gtb_spec mtime start).
      - split_and!; [lia| |by right]. intros ? _ [= <-]. lia.
      - split_and!; [lia| |by left]. intros ? _ [= <-]. lia. }
    destruct Hstep as (Hs1 & Hs2 & Hs3).
    split_and!; [lia| |].
    + intros filename mtime [->|Hin]%elem_of_cons Hfile Hm.
      * specialize (Hs2 _ Hfile Hm). lia.
      * eauto.
    + destruct Hmax as [->|(filename & Hin & Hfile & Hm)].
      * destruct Hs3 as [->|[Hfile Hm]]; [by left|].
        right. exists name. split_and!; [left|done|done].
      * right. exists filename. split_and!; [by right|done|done].
Qed.

(** X13: [get_story_files_mtime] gives the latest modification time of
    the story files of the directory, those whose name ends in [.md] and
    does not begin with [epic-], and 0 when there is none: it is not
    negative, no readable story file is newer, and it is 0 or the time of
    one of them; it is 0 when the path is empty, is not a directory, or
    cannot be listed. *)
Theorem get_story_files_mtime_is_latest (w : world) (d : disk) (dir_path : string) :
  let latest := get_story_files_mtime w d dir_path in
  (0 <= latest)%Z
  /\ (forall filenames filename mtime,
        dir_path <> EmptyString -> isdir w dir_path = true ->
        listdir d dir_path = Returns filenames ->
        filename ∈ filenames -> is_story_file filename = true ->
        getmtime d (Path.join dir_path filename) = Returns mtime ->
        (mtime <= latest)%Z)
  /\ (latest = 0%Z
      \/ exists filenames filename,
           listdir d dir_path = Returns filenames
           /\ filename ∈ filenames /\ is_story_file filename = true
           /\ getmtime d (Path.join dir_path filename) = Returns latest)
  /\ (dir_path = EmptyString \/ isdir w dir_path = false
      \/ (exists e, listdir d dir_path = Raises e) -> latest = 0%Z).
Proof.
  unfold get_story_files_mtime.
  destruct (dir_path =? EmptyString) eqn:Hempty; simpl.
  { apply String.eqb_eq in Hempty. split_and!; [lia|done|by left|done]. }
  apply String.eqb_neq in Hempty.
  destruct (isdir w dir_path) eqn:Hdir; simpl.
  2: { split_and!; [lia|done|by left|done]. }
  destruct (listdir d dir_path) as [filenames|e] eqn:Hlist.
  2: { split_and!; [lia|done|by left|done]. }
  destruct (newest_story_file d dir_path filenames 0) as (Hge & Hall & Hmax).
  split_and!; [done| | |].
  - intros ? filename mtime _ _ [= <-]. apply Hall.
  - destruct Hmax as [?|(filename & ? & ? & ?)]; [by left|].
    right. by exists filenames, filename.
  - intros [?|[?|[? ?]]]; done.
Qed.

Example get_story_files_mtime_example :
  get_story_files_mtime scenario_on_disk example_disk "docs" = 300%Z
  /\ get_story_files_mtime scenario_on_disk example_disk "elsewhere" = 0%Z
  /\ endswith "epic-1.md" ".md" = true /\ endswith "md" ".md" = false
  /\ endswith ".md" ".md" = true /\ endswith "notes.txt" ".md" = false.
Proof. by vm_compute. Qed.

(** ** The watcher *)

Lemma set_modified_same s :
  Server.set_modified (Server.last_modified s) (Server.last_story_modified s) s = s.
Proof. by destruct s. Qed.

Lemma notify_story_dir w yaml_path failing s s' :
  Server.notify w yaml_path failing s = Returns s' ->
  Server.story_dir s' = next_story_dir w yaml_path (Server.story_dir s)
  /\ Server.last_modified s' = Server.last_modified s
  /\ Server.last_story_modified s' = Server.last_story_modified s.
Proof.
  unfold Server.notify, next_story_dir.
  destruct (parse_sprint_status w yaml_path) as [data|]; simpl; [|done].
  case_bool_decide; by intros [= <-].
Qed.

Lemma notify_raises w yaml_path failing s e :
  Server.notify w yaml_path failing s = Raises e ->
  parse_sprint_status w yaml_path = Raises e.
Proof.
  unfold Server.notify.
  destruct (parse_sprint_status w yaml_path) as [data|]; simpl;
    [|by intros [= ->]].
  by case_bool_decide.
Qed.

Lemma watch_unchanged w yaml_path seen s :
  Server.current_modified seen = Returns (Server.last_modified s) ->
  Server.current_story_modified seen = Server.last_story_modified s ->
  Server.watch w yaml_path seen s = s.
Proof.
  intros Hm Hs. unfold Server.watch. rewrite Hm, Hs, !Z.eqb_refl. simpl.
  apply set_modified_same.
Qed.

(** The times and the story directory after a pass that could read the
    time of the sprint file. *)
Lemma watch_records w yaml_path seen s modified :
  Server.current_modified seen = Returns modified ->
  let changed :=
    negb (modified =? Server.last_modified s)%Z
    || negb (Server.current_story_modified seen =? Server.last_story_modified s)%Z in
  Server.last_modified (Server.watch w yaml_path seen s) = modified
  /\ Server.last_story_modified (Server.watch w yaml_path seen s)
     = Server.current_story_modified seen
  /\ Server.story_dir (Server.watch w yaml_path seen s)
     = if changed then next_story_dir w yaml_path (Server.story_dir s)
       else Server.story_dir s.
Proof.
  intros Hm. unfold Server.watch. rewrite Hm. simpl.
  destruct (_ || _); [|done].
  destruct (Server.notify _ _ _ _) as [s'|e] eqn:Hn.
  - by apply notify_story_dir in Hn as (-> & -> & ->).
  - apply notify_raises in Hn. unfold next_story_dir. by rewrite Hn.
Qed.

(** X14: a change is announced once: a second pass of the watcher that
    observes the same times as the pass before sends nothing more and
    changes nothing, also when the resolution of the first pass raised. *)
Theorem watcher_pass_idempotent
  (w : world) (yaml_path : string) (seen : Server.observation) (s : Server.server) :
  Server.watch w yaml_path seen (Server.watch w yaml_path seen s)
  = Server.watch w yaml_path seen s.
Proof.
  destruct (Server.current_modified seen) as [modified|e] eqn:Hm.
  - destruct (watch_records w yaml_path seen s modified Hm) as (Hlm & Hlsm & _).
    apply watch_unchanged; [by rewrite Hlm|by rewrite Hlsm].
  - unfold Server.watch. by rewrite Hm.
Qed.

Lemma next_story_dir_idem w yaml_path dir :
  next_story_dir w yaml_path (next_story_dir w yaml_path dir)
  = next_story_dir w yaml_path dir.
Proof.
  unfold next_story_dir.
  destruct (parse_sprint_status w yaml_path) as [data|]; [|done].
  by destruct (_story_dir data).
Qed.

(** X15: on a disk and a source that do not change, the watcher is quiet
    after at most two passes: a third pass in a row changes nothing and
    sends nothing, whatever the globals were before the first. *)
Theorem watcher_quiet_after_two_passes
  (w : world) (d : disk) (yaml_path : string) (failing1 failing2 failing3 : gset nat)
  (s : Server.server) :
  let s2 :=
    file_watcher_pass w d yaml_path failing2
      (file_watcher_pass w d yaml_path failing1 s) in
  file_watcher_pass w d yaml_path failing3 s2 = s2.
Proof.
  intros s2. subst s2. unfold file_watcher_pass.
  destruct (getmtime d yaml_path) as [modified|e] eqn:Hm.
  2: { unfold Server.watch. simpl. done. }
  set (seen1 := {| Server.current_modified := Returns modified;
                   Server.current_story_modified :=
                     get_story_files_mtime w d (Server.story_dir s);
                   Server.failing := failing1 |}).
  set (s1 := Server.watch w yaml_path seen1 s).
  destruct (watch_records w yaml_path seen1 s modified eq_refl) as (Hlm1 & Hlsm1 & Hd1).
  fold s1 in Hlm1, Hlsm1, Hd1. simpl in Hlsm1.
  set (seen2 := {| Server.current_modified := Returns modified;
                   Server.current_story_modified :=
                     get_story_files_mtime w d (Server.story_dir s1);
                   Server.failing := failing2 |}).
  set (s2 := Server.watch w yaml_path seen2 s1).
  destruct (watch_records w yaml_path seen2 s1 modified eq_refl) as (Hlm2 & Hlsm2 & Hd2).
  fold s2 in Hlm2, Hlsm2, Hd2. simpl in Hlsm2.
  assert (Hsame : Server.story_dir s2 = Server.story_dir s1).
  { rewrite Hd2, Hlm1, Z.eqb_refl. simpl. rewrite Hlsm1.
    destruct (Z.eqb_spec (get_story_files_mtime w d (Server.story_dir s1))
                (get_story_files_mtime w d (Server.story_dir s))) as [Heq|Hne];
      [done|]. simpl.
    rewrite Hd1 in *. destruct (_ || _); [|done]. apply next_story_dir_idem. }
  apply watch_unchanged; simpl.
  - by rewrite Hlm2.
  - by rewrite Hlsm2, Hsame.
Qed.

(** X16: [main] records the two modification times for the story
    directory of the first snapshot, so that the first pass of the watcher
    on an unchanged disk finds no change and sends nothing. *)
Theorem first_watcher_pass_after_start_is_quiet
  (w : world) (d : disk) (yaml_file : string) (failing : gset nat) (s : Server.server) :
  main w d yaml_file = Serves s ->
  file_watcher_pass w d yaml_file failing s = s.
Proof.
  unfold main. destruct (negb (exists_ w yaml_file)); [done|].
  destruct (getmtime d yaml_file) as [modified|] eqn:Hm; [|done].
  destruct (parse_sprint_status w yaml_file) as [data|]; [|done].
  intros [= <-]. unfold file_watcher_pass. by apply watch_unchanged.
Qed.

Lemma first_watcher_pass_after_start_is_quiet_witness :
  main scenario_on_disk example_disk sprint_file = Serves (Server.initial "docs" 50 300)
  /\ file_watcher_pass scenario_on_disk example_disk sprint_file ∅
       (Server.initial "docs" 50 300)
     = Server.initial "docs" 50 300.
Proof.
  assert (H : main scenario_on_disk example_disk sprint_file
              = Serves (Server.initial "docs" 50 300)) by (vm_compute; reflexivity).
  split; [exact H|].
  exact (first_watcher_pass_after_start_is_quiet _ _ _ ∅ _ H).
Defined.

(** The outcomes of the start: a missing sprint file ends the process with
    code 1 before anything is served. *)
Example main_examples :
  main scenario example_disk "docs/missing.yaml" = Exits 1
  /\ main {| fs := fs scenario_on_disk; safe_load := safe_load empty_section |}
          example_disk sprint_file = Crashes "AttributeError".
Proof. by vm_compute. Qed.

(** ** The life of the process *)

Lemma run_reachable w yaml_path events s s' :
  Server.reachable w yaml_path s -> Server.run w yaml_path s events = Some s' ->
  Server.reachable w yaml_path s'.
Proof.
  revert s. induction events as [|e events IH]; intros s Hreach; simpl.
  - by intros [= <-].
  - destruct (Server.step w yaml_path s e) as [s1|] eqn:Hstep; [|done].
    apply IH. by eapply Server.reachable_step.
Qed.

Lemma run_timers_known w yaml_path dir modified story_modified events s :
  Server.run w yaml_path (Server.initial dir modified story_modified) events = Some s ->
  timers_known s.
Proof.
  intros Hrun. eapply reachable_timers_known, run_reachable; [|done].
  constructor.
Qed.

(** With a viewer connected [shutdown_task] is [None]; after the exit
    the code is 0 and nobody is connected. *)
Lemma reachable_exit_idle w yaml_path s :
  Server.reachable w yaml_path s ->
  (Server.connected_clients s <> ∅ -> Server.shutdown_task s = None)
  /\ (forall c, Server.exit_code s = Some c -> c = 0%Z /\ Server.connected_clients s = ∅).
Proof.
  induction 1 as [dir m sm|s e s' _ [IHtask IHexit] Hstep]; [done|].
  unfold Server.step in Hstep. destruct (Server.exit_code s) eqn:Hexit; [done|].
  destruct e as [ws|ws|d|task|seen].
  - case_decide; [done|]. injection Hstep as <-. simpl. by rewrite Hexit.
  - case_decide as Hin; [|done]. injection Hstep as <-. simpl. rewrite Hexit.
    split; [|done]. case_bool_decide as Hidle.
    + intros Hne. by apply size_empty_iff, leibniz_equiv in Hidle.
    + intros _. apply IHtask. set_solver.
  - injection Hstep as <-. simpl. by rewrite Hexit.
  - destruct (Server.sleeping s !! task) as [due|]; [|done].
    destruct (due <=? Server.clock s)%nat; [|done]. injection Hstep as <-. simpl.
    split; [done|]. case_bool_decide as Hidle; [|by rewrite Hexit].
    intros c [= <-]. split; [done|]. by apply size_empty_iff, leibniz_equiv in Hidle.
  - injection Hstep as <-.
    destruct (watch_keeps w yaml_path seen s) as (-> & -> & _ & _ & _ & ->).
    by rewrite Hexit.
Qed.

(** X17: whatever happened since the start, the process has ended only
    with code 0 and with nobody connected; a timer that wakes is the one
    [shutdown_task] refers to and always ends the process, so that the
    check of [shutdown_timer] after its sleep never finds a viewer; and
    while a viewer is connected no timer is pending at all. *)
Theorem process_ends_only_idle_with_code_zero
  (w : world) (yaml_path dir : string) (modified story_modified : Z)
  (events : list Server.event) (s : Server.server) :
  Server.run w yaml_path (Server.initial dir modified story_modified) events = Some s ->
  (forall c, Server.exit_code s = Some c -> c = 0%Z /\ Server.connected_clients s = ∅)
  /\ (forall task s',
        Server.step w yaml_path s (Server.Wake task) = Some s' ->
        Server.shutdown_task s = Some task /\ Server.exit_code s' = Some 0%Z)
  /\ (Server.connected_clients s <> ∅ ->
      Server.sleeping s = ∅ /\ Server.shutdown_task s = None).
Proof.
  intros Hrun.
  pose proof (run_timers_known _ _ _ _ _ _ _ Hrun) as Hinv.
  assert (Hreach : Server.reachable w yaml_path s).
  { eapply run_reachable; [|done]. constructor. }
  destruct (reachable_exit_idle _ _ _ Hreach) as [Htask Hexit].
  split_and!; [done| |].
  - intros task s'. unfold Server.step.
    destruct (Server.exit_code s); [done|].
    destruct (Server.sleeping s !! task) as [due|] eqn:Hl; [|done].
    destruct (due <=? Server.clock s)%nat; [|done]. intros [= <-].
    apply Hinv in Hl as [Ht Hnone]. split; [done|]. simpl.
    by rewrite Hnone, size_empty.
  - intros Hne. split; [|by apply Htask].
    apply map_empty. intros task.
    destruct (Server.sleeping s !! task) as [due|] eqn:Hl; [|done].
    by apply Hinv in Hl as [_ Hnone].
Qed.

Lemma process_ends_only_idle_with_code_zero_witness :
  let s := {| Server.connected_clients := ∅; Server.shutdown_task := Some 0;
              Server.story_dir := "docs"; Server.last_modified := 0;
              Server.last_story_modified := 0; Server.clock := 30;
              Server.sleeping := ∅; Server.next_task := 1;
              Server.exit_code := Some 0%Z; Server.outbox := [] |} in
  Server.run scenario sprint_file (Server.initial "docs" 0 0) one_visit_and_timeout
  = Some s
  /\ (forall c, Server.exit_code s = Some c -> c = 0%Z /\ Server.connected_clients s = ∅)
  /\ (forall task s',
        Server.step scenario sprint_file s (Server.Wake task) = Some s' ->
        Server.shutdown_task s = Some task /\ Server.exit_code s' = Some 0%Z)
  /\ (Server.connected_clients s <> ∅ ->
      Server.sleeping s = ∅ /\ Server.shutdown_task s = None).
Proof.
  intros s.
  assert (H : Server.run scenario sprint_file (Server.initial "docs" 0 0)
                one_visit_and_timeout = Some s) by (vm_compute; reflexivity).
  split; [exact H|].
  exact (process_ends_only_idle_with_code_zero _ _ _ _ _ _ _ H).
Defined.

(** X18: while the resolver raises on the source, a viewer who connects
    is dropped at once: its handler ends before anything is sent and the
    viewer set is as before.  If nobody else is connected, the countdown
    that the connection had cancelled starts again from 30 seconds. *)
Theorem unresolvable_source_drops_new_viewer
  (w0 w : world) (yaml_path dir : string) (modified story_modified : Z)
  (events : list Server.event) (failing : gset nat) (websocket : nat)
  (s : Server.server) (e : string) :
  Server.run w0 yaml_path (Server.initial dir modified story_modified) events = Some s ->
  parse_sprint_status w yaml_path = Raises e ->
  websocket ∉ Server.connected_clients s ->
  exists s',
    websocket_handler w yaml_path failing websocket s = Finished s'
    /\ Server.connected_clients s' = Server.connected_clients s
    /\ Server.outbox s' = Server.outbox s
    /\ (Server.connected_clients s = ∅ ->
        Server.shutdown_task s' = Some (Server.next_task s)
        /\ Server.sleeping s' = {[Server.next_task s := Server.clock s + 30]}).
Proof.
  intros Hrun Hparse Hnew.
  pose proof (run_timers_known _ _ _ _ _ _ _ Hrun) as Hinv.
  unfold websocket_handler, answer. rewrite Hparse. eexists. split; [done|].
  simpl. split_and!; [set_solver|done|].
  intros Hnone.
  assert (Hidle : size (({[websocket]} ∪ Server.connected_clients s) ∖ {[websocket]}) = 0).
  { apply size_empty_iff. set_solver. }
  rewrite !bool_decide_eq_true_2 by done. split; [done|].
  rewrite <- insert_empty. f_equal.
  apply map_empty. intros task.
  destruct (Server.shutdown_task s) as [t|] eqn:Ht.
  - destruct (decide (t = task)) as [->|Hne]; [by rewrite lookup_delete_eq|].
    rewrite lookup_delete_ne by done.
    destruct (Server.sleeping s !! task) as [due|] eqn:Hl; [|done].
    apply Hinv in Hl as [Hl _]. congruence.
  - destruct (Server.sleeping s !! task) as [due|] eqn:Hl; [|done].
    apply Hinv in Hl as [Hl _]. congruence.
Qed.

Lemma unresolvable_source_drops_new_viewer_witness :
  let s := Server.initial "docs" 0 0 in
  Server.run scenario sprint_file (Server.initial "docs" 0 0) [] = Some s
  /\ parse_sprint_status empty_section sprint_file = Raises "AttributeError"
  /\ (7 ∉ Server.connected_clients s)
  /\ exists s',
       websocket_handler empty_section sprint_file ∅ 7 s = Finished s'
       /\ Server.connected_clients s' = Server.connected_clients s
       /\ Server.outbox s' = Server.outbox s
       /\ (Server.connected_clients s = ∅ ->
           Server.shutdown_task s' = Some (Server.next_task s)
           /\ Server.sleeping s' = {[Server.next_task s := Server.clock s + 30]}).
Proof.
  intros s.
  assert (H1 : Server.run scenario sprint_file (Server.initial "docs" 0 0) [] = Some s)
    by reflexivity.
  assert (H2 : parse_sprint_status empty_section sprint_file = Raises "AttributeError")
    by (vm_compute; reflexivity).
  assert (H3 : 7 ∉ Server.connected_clients s) by (simpl; set_solver).
  split_and!; [done..|].
  exact (unresolvable_source_drops_new_viewer _ _ _ _ _ _ _ ∅ 7 _ _ H1 H2 H3).
Defined.

(** ** Groups and labels, further *)

(** X19: the first entry that refers to a group decides its status and
    title.  When that entry is an item [N-...], the group is
    ["in-progress"] with the title ["Epic N"], also when an entry
    [epic-N] of the group follows with another status; the snapshot has
    no second group of that key. *)
Theorem group_opened_by_item_is_in_progress
  (w : world) (yaml_file : string) (dev : list (string * yaml)) (dir : string)
  (before after : list (string * yaml)) (k : string) (v : yaml) (p0 : string) :
  resolves w yaml_file dev dir ->
  dev = before ++ (k, v) :: after ->
  classify k = Item p0 ->
  (forall kv, kv ∈ before -> group_of kv.1 <> Some ("epic-" ++ p0)%string) ->
  exists snap e,
    parse_sprint_status w yaml_file = Returns snap
    /\ e ∈ epics snap
    /\ epic_key e = ("epic-" ++ p0)%string
    /\ epic_status e = Str "in-progress"
    /\ epic_title e = ("Epic " ++ p0)%string
    /\ forall e', e' ∈ epics snap -> epic_key e' = epic_key e -> e' = e.
Proof.
  intros Hres -> Hc Hbefore.
  set (dev := before ++ (k, v) :: after). set (g := ("epic-" ++ p0)%string).
  set (e0 := {| epic_key := g; epic_title := ("Epic " ++ p0)%string;
                epic_status := Str "in-progress"; stories := [] |}).
  assert (Hf : first_opened dev g = Some e0).
  { unfold dev. rewrite first_opened_app.
    - simpl. unfold opened_by. rewrite Hc. by rewrite decide_True.
    - intros kv Hin. by apply opened_by_other, Hbefore. }
  set (e := sort_stories (add_stories (discovered w dir dev g) e0)).
  eexists _, e. split; [by apply parse_resolves|]. simpl.
  split_and!; try done.
  - apply ordered_epics_spec. by exists e0.
  - intros e' (e1 & Hf' & He')%ordered_epics_spec Hkey.
    assert (Hg : epic_key e' = g) by by rewrite Hkey.
    rewrite Hg in Hf', He'. change (first_opened dev g = Some e1) in Hf'.
    rewrite Hf in Hf'. by injection Hf' as <-.
Qed.

Lemma group_opened_by_item_is_in_progress_witness :
  resolves (sprint late_entry_dev []) sprint_file late_entry_dev "docs"
  /\ late_entry_dev = [] ++ ("3-1-first", Str "done") :: [("epic-3", Str "done")]
  /\ classify "3-1-first" = Item "3"
  /\ (forall kv : string * yaml, kv ∈ [] -> group_of kv.1 <> Some ("epic-" ++ "3")%string)
  /\ exists snap e,
       parse_sprint_status (sprint late_entry_dev []) sprint_file = Returns snap
       /\ e ∈ epics snap
       /\ epic_key e = ("epic-" ++ "3")%string
       /\ epic_status e = Str "in-progress"
       /\ epic_title e = ("Epic " ++ "3")%string
       /\ forall e', e' ∈ epics snap -> epic_key e' = epic_key e -> e' = e.
Proof.
  assert (H1 : resolves (sprint late_entry_dev []) sprint_file late_entry_dev "docs")
    by apply sprint_resolves.
  assert (H2 : late_entry_dev
               = [] ++ ("3-1-first", Str "done") :: [("epic-3", Str "done")])
    by reflexivity.
  assert (H3 : classify "3-1-first" = Item "3") by (vm_compute; reflexivity).
  assert (H4 : forall kv : string * yaml, kv ∈ [] ->
                 group_of kv.1 <> Some ("epic-" ++ "3")%string)
    by (intros kv Hin; by apply elem_of_nil in Hin).
  split; [exact H1|]. split; [exact H2|]. split; [exact H3|]. split; [exact H4|].
  exact (group_opened_by_item_is_in_progress _ _ _ _ _ _ _ _ _ H1 H2 H3 H4).
Defined.

Lemma spaced_statusClass status : spaced (statusClass status) = spaced status.
Proof.
  unfold statusClass. induction status as [|c rest IH]; simpl; [done|].
  rewrite IH. f_equal.
  destruct (Ascii.eqb c "_") eqn:Hu; simpl; rewrite ?Hu; [|done].
  by rewrite orb_true_r.
Qed.

(** X20: the summary bar counts the stories by the class of their
    status and labels each count with [formatStatus] of the class: that
    label is the label on the cards of the stories counted, and two
    statuses of one class have one label, whatever [toUpperCase] does. *)
Theorem summary_label_is_card_label (toUpperCase : string -> string) (a b : string) :
  formatStatus toUpperCase (statusClass a) = formatStatus toUpperCase a
  /\ (statusClass a = statusClass b ->
      formatStatus toUpperCase a = formatStatus toUpperCase b).
Proof.
  unfold formatStatus. rewrite spaced_statusClass. split; [done|].
  intros Hsame. by rewrite <- (spaced_statusClass a), Hsame, spaced_statusClass.
Qed.
